(** * graw engine: the polling loop and its monitor registry

    A shallow embedding of [internal/engine/engine.go].  The engine owns a
    [container/list] of monitors and a map from user names to list elements,
    and [Run] drives every monitor's [Update] from a timed loop until a stop
    signal arrives or a polling pass fails.

    Collaborators that live outside the file (the bot's optional interfaces
    of package [botfaces], the monitors of package [monitor], the Reddit
    client) act on an abstract [World]; every call the engine makes to one of
    them is recorded in the trace the engine's operations return.

    Every method edits the registry with the engine's mutex held, so the
    methods are run here one after the other; what other goroutines do to a
    running loop reaches it through [e.stopSig] and is given to [Run] as the
    list of wakeups of its successive turns. *)

From Stdlib Require Import ZArith.
From stdpp Require Import gmap strings list fin_maps.

Open Scope Z_scope.

(** ** Package [time]: a [Duration] is a count of nanoseconds. *)
Module time.
Definition Duration : Type := Z.
Definition Nanosecond : Duration := 1.
Definition Microsecond : Duration := 1000 * Nanosecond.
Definition Millisecond : Duration := 1000 * Microsecond.
Definition Second : Duration := 1000 * Millisecond.
Definition Minute : Duration := 60 * Second.
End time.

(** [defaultBlockTime = time.Minute / 30]; Go's integer division truncates. *)
Definition defaultBlockTime : time.Duration := Z.quot time.Minute 30.

Close Scope Z_scope.

(** ** Package [container/list]

    A [*list.Element] is known by its address [ptr]; [alloc] is the next
    address the allocator hands out, so every [PushBack] yields an element
    distinct from all earlier ones. *)
Module clist.
Section WithValue.
Context {V : Type}.

Record Element : Type := { ptr : nat; Value : V }.

Record List : Type := { elems : list Element; alloc : nat }.

Definition New : List := {| elems := []; alloc := 0 |}.

Definition Len (l : List) : nat := length (elems l).

(** [l.PushBack(v)] links a new element at the back and returns it. *)
Definition PushBack (v : V) (l : List) : List * nat :=
  ({| elems := elems l ++ [{| ptr := alloc l; Value := v |}];
      alloc := S (alloc l) |},
   alloc l).

(** Unlinking the one node whose address is [p]. *)
Fixpoint unlink (p : nat) (es : list Element) : list Element :=
  match es with
  | [] => []
  | e :: es' => if Nat.eqb (ptr e) p then es' else e :: unlink p es'
  end.

(** [l.Remove(e)] does nothing when [e] is not an element of [l]. *)
Definition Remove (p : nat) (l : List) : List :=
  {| elems := unlink p (elems l); alloc := alloc l |}.

(** The walk [for i := l.Front(); i != nil; i = i.Next()]. *)
Definition values (l : List) : list V := Value <$> elems l.
End WithValue.
Arguments Element : clear implicits.
Arguments List : clear implicits.
End clist.

(** ** What lies outside the engine

    [World] is the state of everything the engine does not own (the network,
    the bot's own fields, the monitors' tips); [Foreign] the errors the
    collaborators raise; [Monitor] the values of [monitor.Monitor]; [Link]
    and [Comment] the [redditproto] messages. *)
Class Outside : Type := {
  World : Type;
  Foreign : Type;
  Monitor : Type;
  Link : Type;
  Comment : Type
}.

Section Interfaces.
Context `{Outside}.

(** A Go [error] is either built by the engine itself with [fmt.Errorf]
    or handed over by a collaborator; [nil] is [None] of [option error]. *)
Inductive error : Type :=
| Errorf (msg : string)
| Raised (x : Foreign).

(** *** Package [botfaces]: the optional interfaces of a bot. *)
Record Loader : Type := { SetUp : World → option error * World }.
Record Tearer : Type := { TearDown : World → World }.
Record Failer : Type := { Fail : error → World → bool * World }.
Record BlockTimer : Type := { BlockTime : World → time.Duration * World }.
Record UserHandler : Type := {
  UserPost : Link → World → World;
  UserComment : Comment → World → World
}.

(** [bot interface{}]: each field is the result of the type assertion
    [e.bot.(botfaces.X)], [None] when [ok] is false. *)
Record Bot : Type := {
  asLoader : option Loader;
  asTearer : option Tearer;
  asFailer : option Failer;
  asBlockTimer : option BlockTimer;
  asUserHandler : option UserHandler
}.
End Interfaces.

(** *** Package [monitor]

    [mon_Update mon] is [mon.Update(scrape, isThereThing)] with the two
    closures over [e.cli.Do] that [updateMonitors] passes;
    [monitor_UserMonitor han user] is
    [monitor.UserMonitor(scrape, han.UserPost, han.UserComment, user)].

    *** Package [api]

    [api_Reply], [api_Compose], [api_Submit] and [api_Thread] are the
    requests of that name sent through [e.cli.Do]. *)
Class Packages `{Outside} : Type := {
  mon_Update : Monitor → World → option error * World;
  monitor_UserMonitor :
    UserHandler → string → World → (Monitor + error) * World;
  api_Reply : string → string → World → option error * World;
  api_Compose : string → string → string → World → option error * World;
  api_Submit :
    string → string → string → string → World → option error * World;
  api_Thread : string → World → (option Link * option error) * World
}.

Section Engine.
Context `{Packages}.

(** The fields of [Engine] that the engine itself reads and writes.  The
    client [cli] is only ever handed to the collaborators and is part of
    their [World]; the channel [stopSig] shows in the wakeups of the loop
    (see [wakeup] below). *)
Record Engine : Type := {
  bot : Bot;
  stop : bool;
  monitors : clist.List Monitor;
  userMonitors : gmap string nat
}.

Definition set_stop (b : bool) (e : Engine) : Engine :=
  {| bot := bot e; stop := b; monitors := monitors e;
     userMonitors := userMonitors e |}.

Definition set_registry (l : clist.List Monitor) (m : gmap string nat)
    (e : Engine) : Engine :=
  {| bot := bot e; stop := stop e; monitors := l; userMonitors := m |}.

(** Calls that leave the engine, in the order they are made. *)
Inductive Call : Type :=
| CallSetUp
| CallTearDown
| CallFail (err : error)
| CallBlockTime
| CallAfter (d : time.Duration)
| CallUpdate (mon : Monitor)
| CallUserMonitor (user : string)
| CallApi (request : string).

Record State : Type := { eng : Engine; world : World }.

(** Engine methods run on a state and return a value, the new state and
    the calls they made. *)
Definition M (A : Type) : Type := State → A * State * list Call.

Definition ret {A} (a : A) : M A := λ s, (a, s, []).

Definition bind {A B} (m : M A) (k : A → M B) : M B :=
  λ s, let '(a, s1, t1) := m s in
       let '(b, s2, t2) := k a s1 in
       (b, s2, t1 ++ t2).

Local Notation "'let!' x ':=' m 'in' k" := (bind m (λ x, k))
  (at level 10, x name, m at level 100, k at level 200).
Local Notation "'do!' m 'in' k" := (bind m (λ _, k))
  (at level 10, m at level 100, k at level 200).

Definition value {A} (r : A * State * list Call) : A := r.1.1.
Definition final {A} (r : A * State * list Call) : State := r.1.2.
Definition trace {A} (r : A * State * list Call) : list Call := r.2.

(** A method only makes calls of one kind. *)
Definition emits {A} (Q : Call → Prop) (m : M A) : Prop :=
  ∀ s, Forall Q (trace (m s)).

(** One call to a collaborator. *)
Definition call {A} (c : Call) (f : World → A * World) : M A :=
  λ s, let '(a, w) := f (world s) in
       (a, {| eng := eng s; world := w |}, [c]).

(** A call that leaves the world as it is. *)
Definition emit (c : Call) : M unit := λ s, (tt, s, [c]).

Definition get_eng : M Engine := λ s, (eng s, s, []).

Definition update_eng (f : Engine → Engine) : M unit :=
  λ s, (tt, {| eng := f (eng s); world := world s |}, []).

(** *** Direct actions: one request each, no engine field is touched. *)
Definition Reply (parentName text : string) : M (option error) :=
  call (CallApi "Reply") (api_Reply parentName text).

Definition SendMessage (user subject text : string) : M (option error) :=
  call (CallApi "Compose") (api_Compose user subject text).

Definition SelfPost (subreddit title text : string) : M (option error) :=
  call (CallApi "Submit") (api_Submit subreddit "self" title text).

Definition LinkPost (subreddit title url : string) : M (option error) :=
  call (CallApi "Submit") (api_Submit subreddit "link" title url).

Definition DigestThread (permalink : string)
    : M (option Link * option error) :=
  call (CallApi "Thread") (api_Thread permalink).

(** *** The registry: [WatchUser] and [UnwatchUser] *)

(** [WatchUser]: the bot must be a [botfaces.UserHandler]; the monitor that
    [monitor.UserMonitor] builds is pushed at the back of [e.monitors] and
    the new element is stored under [user] in [e.userMonitors]. *)
Definition WatchUser (user : string) : M (option error) :=
  let! e := get_eng in
  match asUserHandler (bot e) with
  | None => ret (Some (Errorf "bot cannot handle user posts or comments"))
  | Some han =>
      let! r := call (CallUserMonitor user) (monitor_UserMonitor han user) in
      match r with
      | inr err => ret (Some err)
      | inl mon =>
          do! update_eng (λ e,
            let '(l, elem) := clist.PushBack mon (monitors e) in
            set_registry l (<[user := elem]> (userMonitors e)) e) in
          ret None
      end
  end.

(** [UnwatchUser]: the element stored under [user], if any, is removed from
    [e.monitors] and the key is deleted; the result is always [nil]. *)
Definition UnwatchUser (user : string) : M (option error) :=
  let! e := get_eng in
  match userMonitors e !! user with
  | Some elem =>
      do! update_eng (λ e,
        set_registry (clist.Remove elem (monitors e))
                     (delete user (userMonitors e)) e) in
      ret None
  | None => ret None
  end.

(** *** A polling pass: [updateMonitors] *)

(** The copy of [e.monitors] made while the lock is held. *)
Definition snapshot (e : Engine) : list Monitor := clist.values (monitors e).

(** [for _, mon := range monitors]: the first error ends the pass. *)
Fixpoint updateEach (mons : list Monitor) : M (option error) :=
  match mons with
  | [] => ret None
  | mon :: rest =>
      let! r := call (CallUpdate mon) (mon_Update mon) in
      match r with
      | Some err => ret (Some err)
      | None => updateEach rest
      end
  end.

Definition updateMonitors : M (option error) :=
  let! e := get_eng in updateEach (snapshot e).

(** [quiet mons w w']: starting in world [w], the [Update] of each monitor
    of [mons] in turn returns [nil], and the world is [w'] afterwards. *)
Inductive quiet : list Monitor → World → World → Prop :=
| quiet_nil w : quiet [] w w
| quiet_cons mon mons w w1 w2 :
    mon_Update mon w = (None, w1) →
    quiet mons w1 w2 →
    quiet (mon :: mons) w w2.

(** *** The loop of [Run] *)

(** [blockTime]: the bot's own value when it is a [botfaces.BlockTimer]. *)
Definition blockTime : M time.Duration :=
  let! e := get_eng in
  match asBlockTimer (bot e) with
  | Some blockTimer => call CallBlockTime (BlockTime blockTimer)
  | None => ret defaultBlockTime
  end.

(** The case of the [select] that fires: a value arrives on [e.stopSig]
    (sent by [Stop]), or the timer of [time.After] does. *)
Inductive wakeup : Type := StopSig | Timer.

(** How far [Run] got: it returned, or it is still in its loop. *)
Inductive outcome : Type :=
| Returned (err : option error)
| Running.

(** One turn of the loop body; [Some err] is [return err]. *)
Definition iteration (wk : wakeup) : M (option error) :=
  let! d := blockTime in
  do! emit (CallAfter d) in
  match wk with
  | StopSig => do! update_eng (set_stop true) in ret None
  | Timer =>
      let! r := updateMonitors in
      match r with
      | None => ret None
      | Some err =>
          let! e := get_eng in
          match asFailer (bot e) with
          | Some failer =>
              let! fail := call (CallFail err) (Fail failer err) in
              if negb (true && negb fail) then ret (Some err) else ret None
          | None => ret (Some err)
          end
      end
  end.

(** [for !e.stop { select ... }] over the wakeups of its successive turns;
    [Running] when the turns listed are over and the loop goes on. *)
Fixpoint loop (sched : list wakeup) : M outcome :=
  let! e := get_eng in
  if stop e then ret (Returned None)
  else
    match sched with
    | [] => ret Running
    | wk :: sched' =>
        let! r := iteration wk in
        match r with
        | Some err => ret (Returned (Some err))
        | None => loop sched'
        end
    end.

(** The rest of [Run] once [SetUp] is over: the deferred [TearDown] runs
    when the function returns. *)
Definition serve (sched : list wakeup) : M outcome :=
  let! e := get_eng in
  let! o := loop sched in
  match o with
  | Returned err =>
      do! match asTearer (bot e) with
          | Some tearer => call CallTearDown (λ w, (tt, TearDown tearer w))
          | None => ret tt
          end in
      ret (Returned err)
  | Running => ret Running
  end.

Definition Run (sched : list wakeup) : M outcome :=
  let! e := get_eng in
  let! r := match asLoader (bot e) with
            | Some loader => call CallSetUp (SetUp loader)
            | None => ret None
            end in
  match r with
  | Some err => ret (Returned (Some err))
  | None => serve sched
  end.

(** *** The exported methods of [Engine]

    [Stop] sends on [e.stopSig] and touches no field of [State]: its value
    reaches a running loop as the wakeup [StopSig]. *)
Inductive method : Type :=
| mReply (parentName text : string)
| mSendMessage (user subject text : string)
| mSelfPost (subreddit title text : string)
| mLinkPost (subreddit title url : string)
| mWatchUser (user : string)
| mUnwatchUser (user : string)
| mDigestThread (permalink : string)
| mStop
| mRun (sched : list wakeup).

Definition invoke (m : method) (s : State) : State :=
  match m with
  | mReply parentName text => final (Reply parentName text s)
  | mSendMessage user subject text => final (SendMessage user subject text s)
  | mSelfPost subreddit title text => final (SelfPost subreddit title text s)
  | mLinkPost subreddit title url => final (LinkPost subreddit title url s)
  | mWatchUser user => final (WatchUser user s)
  | mUnwatchUser user => final (UnwatchUser user s)
  | mDigestThread permalink => final (DigestThread permalink s)
  | mStop => s
  | mRun sched => final (Run sched s)
  end.

Definition invoke_all (ms : list method) (s : State) : State :=
  foldl (λ s m, invoke m s) s ms.

(** The calls the loop of [Run] can make. *)
Definition loop_call (c : Call) : Prop :=
  match c with
  | CallBlockTime | CallAfter _ | CallUpdate _ | CallFail _ => True
  | _ => False
  end.

Definition is_Update (c : Call) : Prop :=
  match c with CallUpdate _ => True | _ => False end.

(** What the loop never changes: the bot and the registry. *)
Definition same_setup (e e' : Engine) : Prop :=
  bot e' = bot e ∧ monitors e' = monitors e
  ∧ userMonitors e' = userMonitors e.

(** Every element handle in [e.userMonitors] was handed out by an earlier
    [PushBack] on [e.monitors]. *)
Definition handles_allocated (e : Engine) : Prop :=
  ∀ user elem, userMonitors e !! user = Some elem →
               (elem < clist.alloc (monitors e))%nat.

(** An element of [e.monitors] that no entry of [e.userMonitors] refers
    to. *)
Definition orphaned (el : clist.Element Monitor) (e : Engine) : Prop :=
  el ∈ clist.elems (monitors e)
  ∧ (clist.ptr el < clist.alloc (monitors e))%nat
  ∧ (∀ user, userMonitors e !! user ≠ Some (clist.ptr el))
  ∧ handles_allocated e.
(** The addresses of the elements of [e.monitors], front to back. *)
Definition element_ptrs (e : Engine) : list nat :=
  clist.ptr <$> clist.elems (monitors e).

(** What [PushBack] and [Remove] keep of a registry: the elements of
    [e.monitors] are distinct and were handed out by the allocator, and
    [e.userMonitors] sends distinct users to distinct elements that are
    in the list. *)
Definition registry_ok (e : Engine) : Prop :=
  NoDup (element_ptrs e)
  ∧ (∀ p, p ∈ element_ptrs e → (p < clist.alloc (monitors e))%nat)
  ∧ (∀ user p, userMonitors e !! user = Some p → p ∈ element_ptrs e)
  ∧ (∀ user1 user2 p,
       userMonitors e !! user1 = Some p →
       userMonitors e !! user2 = Some p → user1 = user2).

(** Is one of the wakeups a value received from [e.stopSig]? *)
Definition has_StopSig (sched : list wakeup) : bool :=
  existsb (λ wk, match wk with StopSig => true | Timer => false end) sched.

End Engine.

(** ** A small world to run the engine in

    Monitors are named after the user they watch; the world is the journal
    of the monitors polled and the bot methods run so far.  The monitor of
    user [down] fails every [Update], and the empty user name is refused by
    [monitor.UserMonitor]. *)
Module Demo.
#[local] Instance outside : Outside := {|
  World := list string;
  Foreign := string;
  Monitor := string;
  Link := unit;
  Comment := unit
|}.

Definition unavailable : error := Raised "503".
Definition noSuchUser : error := Raised "no such user".
Definition noConfig : error := Raised "no config".

Definition poll (mon : string) (w : list string)
    : option error * list string :=
  (if String.eqb mon "down" then Some unavailable else None, w ++ [mon]).

Definition newUserMonitor (han : UserHandler) (user : string)
    (w : list string) : (string + error) * list string :=
  (if String.eqb user "" then inr noSuchUser else inl user, w).

Definition request (w : list string) : option error * list string :=
  (None, w ++ ["request"]).

#[local] Instance packages : Packages :=
  {| mon_Update := poll;
     monitor_UserMonitor := newUserMonitor;
     api_Reply := λ _ _, request;
     api_Compose := λ _ _ _, request;
     api_Submit := λ _ _ _ _, request;
     api_Thread := λ _ w, ((Some tt, None), w ++ ["request"]) |}.

Definition handler : UserHandler :=
  {| UserPost := λ _ w, w ++ ["post"];
     UserComment := λ _ w, w ++ ["comment"] |}.

(** A bot that only handles user posts and comments. *)
Definition watcher : Bot :=
  {| asLoader := None; asTearer := None; asFailer := None;
     asBlockTimer := None; asUserHandler := Some handler |}.

(** A bot that implements none of the optional interfaces. *)
Definition bare : Bot :=
  {| asLoader := None; asTearer := None; asFailer := None;
     asBlockTimer := None; asUserHandler := None |}.

Definition tearer : Tearer := {| TearDown := λ w, w ++ ["torn down"] |}.

Definition failer (fail : bool) : Failer :=
  {| Fail := λ _ w, (fail, w ++ ["failed"]) |}.

(** The interval grows with the journal, one second per entry. *)
Definition blockTimer : BlockTimer :=
  {| BlockTime := λ w,
       ((Z.of_nat (length w) * time.Second)%Z, w ++ ["interval"]) |}.

Definition loader (ok : bool) : Loader :=
  {| SetUp := λ w,
       (if ok then None else Some noConfig, w ++ ["set up"]) |}.

(** A bot with every interface, which carries on after a failed pass. *)
Definition patient : Bot :=
  {| asLoader := Some (loader true); asTearer := Some tearer;
     asFailer := Some (failer false); asBlockTimer := Some blockTimer;
     asUserHandler := Some handler |}.

(** A bot whose [Fail] asks the engine to give up. *)
Definition strict : Bot :=
  {| asLoader := None; asTearer := Some tearer;
     asFailer := Some (failer true); asBlockTimer := None;
     asUserHandler := Some handler |}.

(** A bot whose [SetUp] fails. *)
Definition broken : Bot :=
  {| asLoader := Some (loader false); asTearer := Some tearer;
     asFailer := None; asBlockTimer := None;
     asUserHandler := Some handler |}.

Definition start (b : Bot) : State :=
  {| eng := {| bot := b; stop := false; monitors := clist.New;
               userMonitors := ∅ |};
     world := [] |}.

(** The engine of bot [b] after [WatchUser] on each of [users] in turn. *)
Definition watching (b : Bot) (users : list string) : State :=
  foldl (λ s user, final (WatchUser user s)) (start b) users.
End Demo.

(** ** Reasoning about engine methods *)
Section Methods.
Context `{Packages}.

Lemma bind_unfold {A B} (m : M A) (k : A → M B) (s : State) :
  bind m k s
  = (value (k (value (m s)) (final (m s))),
     final (k (value (m s)) (final (m s))),
     trace (m s) ++ trace (k (value (m s)) (final (m s)))).
Proof.
  unfold bind, value, final, trace.
  destruct (m s) as [[a s1] t1]. cbn.
  destruct (k a s1) as [[b s2] t2]. reflexivity.
Qed.

Lemma bind_step {A B} (m : M A) (k : A → M B) s a s1 t1 :
  m s = (a, s1, t1) →
  bind m k s = (value (k a s1), final (k a s1), t1 ++ trace (k a s1)).
Proof. intros Hm. rewrite bind_unfold, Hm. reflexivity. Qed.

Lemma result_eta {A} (r : A * State * list Call) :
  r = (value r, final r, trace r).
Proof. by destruct r as [[a s] t]. Qed.

Lemma emits_ret {A} Q (a : A) : emits Q (ret a).
Proof. intros s. constructor. Qed.

Lemma emits_bind {A B} Q (m : M A) (k : A → M B) :
  emits Q m → (∀ a, emits Q (k a)) → emits Q (bind m k).
Proof.
  intros Hm Hk s. rewrite bind_unfold. cbn.
  apply Forall_app. split; [apply Hm | apply Hk].
Qed.

Lemma emits_get_eng Q : emits Q get_eng.
Proof. intros s. constructor. Qed.

Lemma emits_update_eng Q f : emits Q (update_eng f).
Proof. intros s. constructor. Qed.

Lemma emits_call {A} (Q : Call → Prop) c (f : World → A * World) :
  Q c → emits Q (call c f).
Proof.
  intros Hc s. unfold call, trace. destruct (f (world s)). cbn.
  by repeat constructor.
Qed.
End Methods.

(** ** Properties of the registry *)
Section Registry.
Context `{Packages}.

Lemma WatchUser_unable user s :
  asUserHandler (bot (eng s)) = None →
  WatchUser user s
  = (Some (Errorf "bot cannot handle user posts or comments"), s, []).
Proof.
  intros Hno. unfold WatchUser, bind, get_eng. rewrite Hno. reflexivity.
Qed.

Lemma WatchUser_refused user s han err w :
  asUserHandler (bot (eng s)) = Some han →
  monitor_UserMonitor han user (world s) = (inr err, w) →
  WatchUser user s
  = (Some err, {| eng := eng s; world := w |}, [CallUserMonitor user]).
Proof.
  intros Hhan Hmon. unfold WatchUser, bind, get_eng, call.
  rewrite Hhan, Hmon. reflexivity.
Qed.

Lemma WatchUser_done user s han mon w :
  asUserHandler (bot (eng s)) = Some han →
  monitor_UserMonitor han user (world s) = (inl mon, w) →
  WatchUser user s
  = (None,
     {| eng := set_registry (clist.PushBack mon (monitors (eng s))).1
                 (<[user := clist.alloc (monitors (eng s))]>
                    (userMonitors (eng s))) (eng s);
        world := w |},
     [CallUserMonitor user]).
Proof.
  intros Hhan Hmon. unfold WatchUser, bind, get_eng, call, update_eng.
  rewrite Hhan, Hmon. reflexivity.
Qed.

Lemma UnwatchUser_absent user s :
  userMonitors (eng s) !! user = None →
  UnwatchUser user s = (None, s, []).
Proof.
  intros Hno. unfold UnwatchUser, bind, get_eng. rewrite Hno. reflexivity.
Qed.

Lemma UnwatchUser_present user s elem :
  userMonitors (eng s) !! user = Some elem →
  UnwatchUser user s
  = (None,
     {| eng := set_registry (clist.Remove elem (monitors (eng s)))
                 (delete user (userMonitors (eng s))) (eng s);
        world := world s |},
     []).
Proof.
  intros Hel. unfold UnwatchUser, bind, get_eng, update_eng.
  rewrite Hel. reflexivity.
Qed.

(** C8: [WatchUser] on a bot that is no [UserHandler] returns the engine's
    own error, and when [monitor.UserMonitor] fails it returns that error;
    in both cases the list of monitors and the user map are as before. *)
Theorem WatchUser_error_keeps_registry (user : string) (s : State) :
  (asUserHandler (bot (eng s)) = None →
   value (WatchUser user s)
     = Some (Errorf "bot cannot handle user posts or comments")
   ∧ final (WatchUser user s) = s)
  ∧ (∀ han err w,
       asUserHandler (bot (eng s)) = Some han →
       monitor_UserMonitor han user (world s) = (inr err, w) →
       value (WatchUser user s) = Some err
       ∧ eng (final (WatchUser user s)) = eng s).
Proof.
  split.
  - intros Hno. rewrite (WatchUser_unable _ _ Hno). done.
  - intros han err w Hhan Hmon.
    rewrite (WatchUser_refused _ _ _ _ _ Hhan Hmon). done.
Qed.

(** C9: [UnwatchUser] returns [nil] in every state, and a second call right
    after the first returns [nil] too and changes nothing. *)
Theorem UnwatchUser_idempotent (user : string) (s : State) :
  value (UnwatchUser user s) = None
  ∧ UnwatchUser user (final (UnwatchUser user s))
    = (None, final (UnwatchUser user s), []).
Proof.
  destruct (userMonitors (eng s) !! user) as [elem|] eqn:Hel.
  - rewrite (UnwatchUser_present _ _ _ Hel). split; [done|].
    apply UnwatchUser_absent. cbn. apply lookup_delete_eq.
  - rewrite (UnwatchUser_absent _ _ Hel). split; [done|].
    cbn. by apply UnwatchUser_absent.
Qed.
End Registry.

(** ** A polling pass *)
Section Pass.
Context `{Packages}.

Lemma updateEach_quiet mons s w :
  quiet mons (world s) w →
  updateEach mons s
  = (None, {| eng := eng s; world := w |}, CallUpdate <$> mons).
Proof.
  revert s. induction mons as [|mon mons IH]; intros s Hq.
  - inversion Hq; subst. by destruct s.
  - inversion Hq as [|? ? ? w1 ? Hup Hrest]; subst. cbn [updateEach].
    erewrite bind_step; last by (unfold call; rewrite Hup).
    cbv iota. by rewrite (IH {| eng := eng s; world := w1 |} Hrest).
Qed.

Lemma updateEach_first_error before mon after s err w1 w2 :
  quiet before (world s) w1 →
  mon_Update mon w1 = (Some err, w2) →
  updateEach (before ++ mon :: after) s
  = (Some err, {| eng := eng s; world := w2 |},
     CallUpdate <$> (before ++ [mon])).
Proof.
  revert s. induction before as [|m before IH]; intros s Hq Herr.
  - inversion Hq; subst. cbn [app updateEach].
    erewrite bind_step; last by (unfold call; rewrite Herr). done.
  - inversion Hq as [|? ? ? w0 ? Hup Hrest]; subst. cbn [app updateEach].
    erewrite bind_step; last by (unfold call; rewrite Hup).
    cbv iota. by rewrite (IH {| eng := eng s; world := w0 |} Hrest Herr).
Qed.

(** Every pass is of one of the two kinds. *)
Lemma quiet_or_first_error mons w :
  (∃ w', quiet mons w w')
  ∨ (∃ before mon after err w1 w2,
       mons = before ++ mon :: after ∧ quiet before w w1
       ∧ mon_Update mon w1 = (Some err, w2)).
Proof.
  revert w. induction mons as [|m mons IH]; intros w.
  - left. eexists. constructor.
  - destruct (mon_Update m w) as [[err|] w1] eqn:Hup.
    + right. exists [], m, mons, err, w, w1. repeat split; [constructor|done].
    + destruct (IH w1)
        as [[w' Hq]|(before & mon & after & err & w2 & w3 & -> & Hq & Herr)].
      * left. exists w'. by econstructor.
      * right. exists (m :: before), mon, after, err, w2, w3.
        repeat split; [by econstructor|done].
Qed.

Lemma updateMonitors_unfold s :
  updateMonitors s = updateEach (snapshot (eng s)) s.
Proof.
  unfold updateMonitors. rewrite bind_unfold. cbn. symmetry. apply result_eta.
Qed.

(** C4: a pass calls [Update] on the monitors of its snapshot in list
    order, which is the order in which [WatchUser] pushed them; the first
    [Update] that fails ends the pass, which returns that error without
    calling [Update] on any later monitor, and a pass in which every
    [Update] returns [nil] calls all of them and returns [nil]. *)
Theorem updateMonitors_first_error (s : State) :
  (∀ han user mon w,
     asUserHandler (bot (eng s)) = Some han →
     monitor_UserMonitor han user (world s) = (inl mon, w) →
     snapshot (eng (final (WatchUser user s))) = snapshot (eng s) ++ [mon])
  ∧ (∀ before mon after err w1 w2,
       snapshot (eng s) = before ++ mon :: after →
       quiet before (world s) w1 →
       mon_Update mon w1 = (Some err, w2) →
       updateMonitors s
       = (Some err, {| eng := eng s; world := w2 |},
          CallUpdate <$> (before ++ [mon])))
  ∧ (∀ w,
       quiet (snapshot (eng s)) (world s) w →
       updateMonitors s
       = (None, {| eng := eng s; world := w |},
          CallUpdate <$> snapshot (eng s)))
  ∧ ((∃ w, quiet (snapshot (eng s)) (world s) w)
     ∨ (∃ before mon after err w1 w2,
          snapshot (eng s) = before ++ mon :: after
          ∧ quiet before (world s) w1
          ∧ mon_Update mon w1 = (Some err, w2))).
Proof.
  split; [|split; [|split]].
  - intros han user mon w Hhan Hmon.
    rewrite (WatchUser_done _ _ _ _ _ Hhan Hmon).
    unfold snapshot, clist.values. cbn. by rewrite fmap_app.
  - intros before mon after err w1 w2 Hsnap Hq Herr.
    rewrite updateMonitors_unfold, Hsnap.
    by apply updateEach_first_error with w1.
  - intros w Hq. rewrite updateMonitors_unfold. by apply updateEach_quiet.
  - apply quiet_or_first_error.
Qed.
End Pass.

(** ** The loop of [Run] *)
Section Loop.
Context `{Packages}.

Lemma updateEach_eng mons s : eng (final (updateEach mons s)) = eng s.
Proof.
  revert s. induction mons as [|mon mons IH]; intros s; [done|].
  cbn [updateEach]. rewrite bind_unfold. cbn [final fst snd].
  destruct (value (call (CallUpdate mon) (mon_Update mon) s)).
  - cbn. unfold call. by destruct (mon_Update mon (world s)).
  - rewrite IH. unfold call. by destruct (mon_Update mon (world s)).
Qed.

Lemma updateMonitors_eng s : eng (final (updateMonitors s)) = eng s.
Proof. rewrite updateMonitors_unfold. apply updateEach_eng. Qed.

Lemma blockTime_eng s : eng (final (blockTime s)) = eng s.
Proof.
  unfold blockTime. rewrite bind_unfold. cbn.
  destruct (asBlockTimer (bot (eng s))) as [bt|]; [|done].
  unfold call. by destruct (BlockTime bt (world s)).
Qed.

(** The interval of one turn and the calls that obtain it. *)
Lemma blockTime_unfold s :
  blockTime s
  = match asBlockTimer (bot (eng s)) with
    | Some blockTimer =>
        ((BlockTime blockTimer (world s)).1,
         {| eng := eng s; world := (BlockTime blockTimer (world s)).2 |},
         [CallBlockTime])
    | None => (defaultBlockTime, s, [])
    end.
Proof.
  unfold blockTime. rewrite bind_unfold. cbn.
  destruct (asBlockTimer (bot (eng s))) as [bt|]; [|done].
  unfold call, value, final, trace. by destruct (BlockTime bt (world s)).
Qed.

Lemma iteration_StopSig s :
  iteration StopSig s
  = (None,
     {| eng := set_stop true (eng s); world := world (final (blockTime s)) |},
     trace (blockTime s) ++ [CallAfter (value (blockTime s))]).
Proof.
  unfold iteration. rewrite !bind_unfold.
  cbn [value final trace fst snd emit update_eng ret eng world].
  by rewrite blockTime_eng, app_nil_r.
Qed.

Lemma iteration_Timer s :
  iteration Timer s
  = let b := blockTime s in
    let u := updateMonitors (final b) in
    match value u with
    | None => (None, final u, trace b ++ [CallAfter (value b)] ++ trace u)
    | Some err =>
        match asFailer (bot (eng s)) with
        | Some failer =>
            let f := Fail failer err (world (final u)) in
            (if f.1 then Some err else None,
             {| eng := eng s; world := f.2 |},
             trace b ++ [CallAfter (value b)] ++ trace u ++ [CallFail err])
        | None =>
            (Some err, final u, trace b ++ [CallAfter (value b)] ++ trace u)
        end
    end.
Proof.
  unfold iteration. rewrite !bind_unfold. cbn zeta.
  cbn [emit value final trace fst snd].
  destruct (value (updateMonitors (final (blockTime s)))) as [err|] eqn:Hu.
  - rewrite bind_unfold. cbn [get_eng value final trace fst snd].
    rewrite updateMonitors_eng, blockTime_eng.
    destruct (asFailer (bot (eng s))) as [failer|].
    + rewrite bind_unfold. unfold call.
      destruct (Fail failer err _) as [[] w];
        cbn [value final trace fst snd ret negb andb eng world];
        by rewrite updateMonitors_eng, blockTime_eng, ?app_nil_r.
    + cbn [value final trace fst snd ret]. by rewrite app_nil_r.
  - cbn [value final trace fst snd ret]. by rewrite app_nil_r.
Qed.

Lemma iteration_same_setup wk s :
  same_setup (eng s) (eng (final (iteration wk s))).
Proof.
  destruct wk.
  - by rewrite iteration_StopSig.
  - rewrite iteration_Timer. cbn zeta.
    destruct (value _); [destruct (asFailer _)|];
      cbn [final fst snd eng];
      by rewrite ?updateMonitors_eng, ?blockTime_eng.
Qed.

Lemma loop_stopped sched s :
  stop (eng s) = true → loop sched s = (Returned None, s, []).
Proof.
  intros Hstop. destruct sched; cbn [loop];
    rewrite bind_unfold; cbn; by rewrite Hstop.
Qed.

Lemma loop_nil s : stop (eng s) = false → loop [] s = (Running, s, []).
Proof. intros Hgo. cbn [loop]. rewrite bind_unfold. cbn. by rewrite Hgo. Qed.

Lemma loop_cons wk sched s :
  stop (eng s) = false →
  loop (wk :: sched) s
  = let i := iteration wk s in
    match value i with
    | Some err => (Returned (Some err), final i, trace i)
    | None =>
        (value (loop sched (final i)), final (loop sched (final i)),
         trace i ++ trace (loop sched (final i)))
    end.
Proof.
  intros Hgo. cbn [loop]. rewrite bind_unfold.
  cbn [get_eng value final trace fst snd].
  rewrite Hgo, bind_unfold. cbn zeta.
  destruct (value (iteration wk s)); cbn; by rewrite ?app_nil_r.
Qed.

Lemma loop_same_setup sched s :
  same_setup (eng s) (eng (final (loop sched s))).
Proof.
  revert s. induction sched as [|wk sched IH]; intros s;
    destruct (stop (eng s)) eqn:Hstop.
  - by rewrite loop_stopped.
  - by rewrite loop_nil.
  - by rewrite loop_stopped.
  - rewrite loop_cons by done. cbn zeta.
    pose proof (iteration_same_setup wk s) as (Hb & Hm & Hu).
    destruct (value (iteration wk s)); cbn; [done|].
    destruct (IH (final (iteration wk s))) as (Hb' & Hm' & Hu').
    repeat split; congruence.
Qed.

(** A loop that is still running after the turns of [pre] goes on with
    the turns that follow. *)
Lemma loop_resume pre post s s1 t1 :
  loop pre s = (Running, s1, t1) →
  loop (pre ++ post) s
  = (value (loop post s1), final (loop post s1), t1 ++ trace (loop post s1)).
Proof.
  revert s t1. induction pre as [|wk pre IH]; intros s t1 Hpre.
  - destruct (stop (eng s)) eqn:Hstop.
    + by rewrite loop_stopped in Hpre.
    + rewrite loop_nil in Hpre by done. injection Hpre as <- <-.
      cbn [app]. apply result_eta.
  - destruct (stop (eng s)) eqn:Hstop.
    + by rewrite loop_stopped in Hpre.
    + cbn [app]. rewrite loop_cons in Hpre |- * by done. cbn zeta in *.
      destruct (value (iteration wk s)); [done|].
      injection Hpre as Hv Hf Ht.
      rewrite (IH (final (iteration wk s))
                 (trace (loop pre (final (iteration wk s))))).
      * cbn. by rewrite <- Ht, app_assoc.
      * rewrite <- Hv, <- Hf. apply result_eta.
Qed.

Lemma loop_running_stop sched s s1 t1 :
  loop sched s = (Running, s1, t1) → stop (eng s1) = false.
Proof.
  revert s t1. induction sched as [|wk sched IH]; intros s t1 Hl;
    destruct (stop (eng s)) eqn:Hstop.
  - by rewrite loop_stopped in Hl.
  - rewrite loop_nil in Hl by done. by injection Hl as <- _.
  - by rewrite loop_stopped in Hl.
  - rewrite loop_cons in Hl by done. cbn zeta in Hl.
    destruct (value (iteration wk s)); [done|].
    injection Hl as Hv Hf Ht.
    apply (IH (final (iteration wk s))
             (trace (loop sched (final (iteration wk s))))).
    rewrite <- Hv, <- Hf. apply result_eta.
Qed.
End Loop.

(** ** [Run] *)
Section RunLoop.
Context `{Packages}.

Lemma serve_unfold sched s :
  serve sched s
  = let l := loop sched s in
    match value l with
    | Returned err =>
        match asTearer (bot (eng s)) with
        | Some tearer =>
            (Returned err,
             {| eng := eng (final l);
                world := TearDown tearer (world (final l)) |},
             trace l ++ [CallTearDown])
        | None => (Returned err, final l, trace l)
        end
    | Running => (Running, final l, trace l)
    end.
Proof.
  unfold serve. rewrite !bind_unfold. cbn zeta.
  cbn [get_eng value final trace fst snd app].
  destruct (loop sched s) as [[[err|] s1] t1];
    cbn [value final trace fst snd].
  - rewrite bind_unfold.
    destruct (asTearer (bot (eng s))) as [tearer|]; cbn;
      by rewrite ?app_nil_r.
  - cbn. by rewrite app_nil_r.
Qed.

Lemma Run_unfold sched s :
  Run sched s
  = match asLoader (bot (eng s)) with
    | Some loader =>
        let r := SetUp loader (world s) in
        match r.1 with
        | Some err =>
            (Returned (Some err), {| eng := eng s; world := r.2 |},
             [CallSetUp])
        | None =>
            let v := serve sched {| eng := eng s; world := r.2 |} in
            (value v, final v, CallSetUp :: trace v)
        end
    | None => serve sched s
    end.
Proof.
  unfold Run. rewrite !bind_unfold.
  cbn [get_eng value final trace fst snd app].
  destruct (asLoader (bot (eng s))) as [loader|].
  - unfold call. destruct (SetUp loader (world s)) as [[err|] w]; cbn; done.
  - cbn. symmetry. apply result_eta.
Qed.

Lemma serve_running sched s s1 t1 :
  serve sched s = (Running, s1, t1) → loop sched s = (Running, s1, t1).
Proof.
  rewrite serve_unfold. cbn zeta.
  destruct (loop sched s) as [[[err|] s2] t2]; cbn [value final trace fst snd].
  - by destruct (asTearer (bot (eng s))).
  - done.
Qed.

Lemma serve_resume pre post s s1 t1 :
  serve pre s = (Running, s1, t1) →
  serve (pre ++ post) s
  = (value (serve post s1), final (serve post s1),
     t1 ++ trace (serve post s1)).
Proof.
  intros Hpre%serve_running.
  pose proof (loop_same_setup pre s) as (Hbot & _). rewrite Hpre in Hbot.
  cbn in Hbot.
  rewrite (serve_unfold (pre ++ post)), (serve_unfold post).
  rewrite (loop_resume _ post _ _ _ Hpre). cbn zeta.
  cbn [value final trace fst snd]. rewrite Hbot.
  destruct (value (loop post s1)); [destruct (asTearer (bot (eng s)))|];
    cbn [value final trace fst snd]; by rewrite ?app_assoc.
Qed.

Lemma Run_running sched s s1 t1 :
  Run sched s = (Running, s1, t1) →
  same_setup (eng s) (eng s1) ∧ stop (eng s1) = false.
Proof.
  rewrite Run_unfold.
  assert (∀ s' t', serve sched s' = (Running, s1, t') →
                   same_setup (eng s') (eng s1) ∧ stop (eng s1) = false)
    as Hserve.
  { intros s' t' Hl%serve_running. split.
    - pose proof (loop_same_setup sched s') as Hs. by rewrite Hl in Hs.
    - by eapply loop_running_stop. }
  destruct (asLoader (bot (eng s))) as [loader|]; [|by apply Hserve].
  cbn zeta. destruct (SetUp loader (world s)).1; [done|].
  intros Hrun. injection Hrun as Hv Hf Ht.
  apply (Hserve {| eng := eng s; world := (SetUp loader (world s)).2 |}
           (trace (serve sched {| eng := eng s;
                                  world := (SetUp loader (world s)).2 |}))).
  rewrite <- Hv, <- Hf. apply result_eta.
Qed.

(** A [Run] that is still in its loop after the turns of [pre] goes on
    with the turns that follow. *)
Lemma Run_resume pre post s s1 t1 :
  Run pre s = (Running, s1, t1) →
  Run (pre ++ post) s
  = (value (serve post s1), final (serve post s1),
     t1 ++ trace (serve post s1)).
Proof.
  rewrite !Run_unfold.
  destruct (asLoader (bot (eng s))) as [loader|]; [|apply serve_resume].
  cbn zeta. destruct (SetUp loader (world s)).1; [done|].
  intros Hrun. injection Hrun as Hv Hf Ht.
  erewrite (serve_resume pre post); last first.
  { rewrite <- Hv, <- Hf. apply result_eta. }
  cbn [value final trace fst snd]. by rewrite Hf, <- Ht.
Qed.

Lemma updateEach_emits Q mons :
  (∀ mon, Q (CallUpdate mon)) → emits Q (updateEach mons).
Proof.
  intros HQ. induction mons as [|mon mons IH]; cbn [updateEach].
  - apply emits_ret.
  - apply emits_bind; [by apply emits_call|].
    intros [err|]; [apply emits_ret | apply IH].
Qed.

Lemma iteration_emits wk : emits loop_call (iteration wk).
Proof.
  unfold iteration. apply emits_bind.
  { unfold blockTime. apply emits_bind; [apply emits_get_eng|].
    intros e. destruct (asBlockTimer (bot e));
      [by apply emits_call | apply emits_ret]. }
  intros d. apply emits_bind; [intros s; by repeat constructor|].
  intros _. destruct wk.
  - apply emits_bind; [apply emits_update_eng | intros; apply emits_ret].
  - apply emits_bind.
    { unfold updateMonitors. apply emits_bind; [apply emits_get_eng|].
      intros e. by apply updateEach_emits. }
    intros [err|]; [|apply emits_ret].
    apply emits_bind; [apply emits_get_eng|]. intros e.
    destruct (asFailer (bot e)); [|apply emits_ret].
    apply emits_bind; [by apply emits_call|].
    intros []; apply emits_ret.
Qed.

Lemma loop_emits sched : emits loop_call (loop sched).
Proof.
  induction sched as [|wk sched IH]; cbn [loop];
    (apply emits_bind; [apply emits_get_eng|]); intros e;
    destruct (stop e); try apply emits_ret.
  apply emits_bind; [apply iteration_emits|].
  intros [err|]; [apply emits_ret | apply IH].
Qed.

(** C6: when [SetUp] fails, [Run] returns that error at once: [SetUp] is
    the only call made, so there is no polling pass and no [TearDown], and
    the engine is as it was. *)
Theorem SetUp_error_aborts_Run (sched : list wakeup) (s : State)
    (loader : Loader) (err : error) (w : World) :
  asLoader (bot (eng s)) = Some loader →
  SetUp loader (world s) = (Some err, w) →
  Run sched s
  = (Returned (Some err), {| eng := eng s; world := w |}, [CallSetUp]).
Proof.
  intros Hloader Hsetup. by rewrite Run_unfold, Hloader, Hsetup.
Qed.

(** C5: for a bot that is a [Tearer] and whose [SetUp], if it has one,
    succeeds, a [Run] that returns, with [nil] or with an error, has called
    [TearDown] exactly once, as its last call; while [Run] is in its loop
    [TearDown] has not been called. *)
Theorem TearDown_runs_once (sched : list wakeup) (s : State)
    (tearer : Tearer) :
  asTearer (bot (eng s)) = Some tearer →
  (∀ loader, asLoader (bot (eng s)) = Some loader →
             (SetUp loader (world s)).1 = None) →
  (∀ err, value (Run sched s) = Returned err →
          ∃ t, trace (Run sched s) = t ++ [CallTearDown]
               ∧ Forall (λ c, c ≠ CallTearDown) t)
  ∧ (value (Run sched s) = Running →
     Forall (λ c, c ≠ CallTearDown) (trace (Run sched s))).
Proof.
  intros Htear Hsetup.
  assert (∀ s', Forall (λ c, c ≠ CallTearDown) (trace (loop sched s')))
    as Hloop.
  { intros s'. eapply Forall_impl; [apply loop_emits|]. by intros []. }
  assert (∀ s', asTearer (bot (eng s')) = Some tearer →
            (∀ err, value (serve sched s') = Returned err →
               ∃ t, trace (serve sched s') = t ++ [CallTearDown]
                    ∧ Forall (λ c, c ≠ CallTearDown) t)
            ∧ (value (serve sched s') = Running →
               Forall (λ c, c ≠ CallTearDown) (trace (serve sched s'))))
    as Hserve.
  { intros s' Ht. rewrite serve_unfold, Ht. cbn zeta.
    destruct (value (loop sched s')); cbn [value trace fst snd].
    - split; [|done]. intros _ _. eexists. split; [done|apply Hloop].
    - split; [done|]. intros _. apply Hloop. }
  rewrite Run_unfold.
  destruct (asLoader (bot (eng s))) as [loader|]; [|by apply Hserve].
  cbn zeta. rewrite (Hsetup loader eq_refl).
  destruct (Hserve {| eng := eng s; world := (SetUp loader (world s)).2 |}
              Htear) as [Hret Hrun].
  cbn [value trace fst snd]. split.
  - intros err Herr. destruct (Hret err Herr) as (t & -> & Ht).
    exists (CallSetUp :: t). split; [done|]. by constructor.
  - intros Hgo. constructor; [done|]. by apply Hrun.
Qed.

Lemma serve_value sched s : value (serve sched s) = value (loop sched s).
Proof.
  rewrite serve_unfold. cbn zeta.
  destruct (value (loop sched s)); [destruct (asTearer _)|]; done.
Qed.

Lemma loop_StopSig post s :
  stop (eng s) = false →
  loop (StopSig :: post) s
  = (Returned None,
     {| eng := set_stop true (eng s); world := world (final (blockTime s)) |},
     trace (blockTime s) ++ [CallAfter (value (blockTime s))]).
Proof.
  intros Hgo. rewrite loop_cons by done. rewrite iteration_StopSig.
  cbn zeta. cbn [value final trace fst snd].
  rewrite loop_stopped by done. cbn. by rewrite app_nil_r.
Qed.

(** C7: when the loop receives from [e.stopSig], in whatever turn, it sets
    [e.stop] and [Run] returns [nil]; from that turn on no [Update] is
    called, whatever wakeups might have followed. *)
Theorem StopSig_ends_Run (pre post : list wakeup) (s0 s1 : State)
    (t1 : list Call) :
  Run pre s0 = (Running, s1, t1) →
  value (Run (pre ++ StopSig :: post) s0) = Returned None
  ∧ stop (eng (final (Run (pre ++ StopSig :: post) s0))) = true
  ∧ ∃ t2, trace (Run (pre ++ StopSig :: post) s0) = t1 ++ t2
          ∧ Forall (λ c, ¬ is_Update c) t2.
Proof.
  intros Hpre. destruct (Run_running _ _ _ _ Hpre) as [_ Hgo].
  rewrite (Run_resume _ (StopSig :: post) _ _ _ Hpre).
  cbn [value final trace fst snd].
  rewrite serve_unfold, (loop_StopSig _ _ Hgo). cbn zeta.
  cbn [value final trace fst snd]. rewrite blockTime_unfold.
  destruct (asTearer (bot (eng s1))), (asBlockTimer (bot (eng s1)));
    cbn [value final trace fst snd eng set_stop stop];
    (split; [done|split; [done|]]); eexists; (split; [done|]);
    repeat constructor; by intros [].
Qed.

Lemma loop_Timer_error post s err s3 tu :
  stop (eng s) = false →
  updateMonitors (final (blockTime s)) = (Some err, s3, tu) →
  value (iteration Timer s) = Some err →
  value (loop (Timer :: post) s) = Returned (Some err).
Proof.
  intros Hgo Hu Hi. rewrite loop_cons by done. cbn zeta. by rewrite Hi.
Qed.

Lemma iteration_Timer_failed s err s3 tu :
  updateMonitors (final (blockTime s)) = (Some err, s3, tu) →
  iteration Timer s
  = match asFailer (bot (eng s)) with
    | Some failer =>
        (if (Fail failer err (world s3)).1 then Some err else None,
         {| eng := eng s; world := (Fail failer err (world s3)).2 |},
         trace (blockTime s) ++ [CallAfter (value (blockTime s))]
           ++ tu ++ [CallFail err])
    | None =>
        (Some err, s3,
         trace (blockTime s) ++ [CallAfter (value (blockTime s))] ++ tu)
    end.
Proof.
  intros Hu. rewrite iteration_Timer. cbn zeta. by rewrite Hu.
Qed.

(** The amended C1: after a polling pass that fails with [err], [Run]
    returns [err] when the bot is no [Failer] or when [Fail(err)] is true;
    when [Fail(err)] is false [Run] does not return and goes on with the
    next turn of its loop. *)
Theorem Fail_decides_after_failed_pass (pre post : list wakeup)
    (s0 s1 s3 : State) (t1 tu : list Call) (err : error) :
  Run pre s0 = (Running, s1, t1) →
  updateMonitors (final (blockTime s1)) = (Some err, s3, tu) →
  (asFailer (bot (eng s0)) = None →
   value (Run (pre ++ Timer :: post) s0) = Returned (Some err))
  ∧ (∀ failer w,
       asFailer (bot (eng s0)) = Some failer →
       Fail failer err (world s3) = (true, w) →
       value (Run (pre ++ Timer :: post) s0) = Returned (Some err))
  ∧ (∀ failer w,
       asFailer (bot (eng s0)) = Some failer →
       Fail failer err (world s3) = (false, w) →
       let s4 := {| eng := eng s1; world := w |} in
       let t := t1 ++ trace (blockTime s1)
                 ++ [CallAfter (value (blockTime s1))] ++ tu
                 ++ [CallFail err] in
       Run (pre ++ [Timer]) s0 = (Running, s4, t)
       ∧ Run (pre ++ Timer :: post) s0
         = (value (serve post s4), final (serve post s4),
            t ++ trace (serve post s4))).
Proof.
  intros Hpre Hu. destruct (Run_running _ _ _ _ Hpre) as [(Hbot & _) Hgo].
  pose proof (iteration_Timer_failed _ _ _ _ Hu) as Hi. rewrite Hbot in Hi.
  split; [|split].
  - intros Hno. rewrite Hno in Hi.
    rewrite (Run_resume _ (Timer :: post) _ _ _ Hpre).
    cbn [value fst]. rewrite serve_value.
    eapply loop_Timer_error; [done..|]. by rewrite Hi.
  - intros failer w Hfailer Hfail. rewrite Hfailer, Hfail in Hi.
    rewrite (Run_resume _ (Timer :: post) _ _ _ Hpre).
    cbn [value fst]. rewrite serve_value.
    eapply loop_Timer_error; [done..|]. by rewrite Hi.
  - intros failer w Hfailer Hfail s4 t. rewrite Hfailer, Hfail in Hi.
    cbn [fst snd] in Hi.
    assert (Run (pre ++ [Timer]) s0 = (Running, s4, t)) as Hone.
    { rewrite (Run_resume _ [Timer] _ _ _ Hpre).
      rewrite serve_unfold, loop_cons by done. rewrite Hi. cbn zeta.
      cbn [value final trace fst snd]. rewrite loop_nil by done.
      cbn [value final trace fst snd]. subst t.
      by rewrite app_nil_r. }
    split; [done|].
    replace (pre ++ Timer :: post) with ((pre ++ [Timer]) ++ post)
      by (by rewrite <- app_assoc).
    by rewrite (Run_resume _ post _ _ _ Hone).
Qed.

(** C10: the default interval is a thirtieth of a minute, and every turn of
    the loop asks for its interval anew: a [BlockTimer] bot is asked in the
    world of that turn and its answer is the timer's interval, any other
    bot gets the default. *)
Theorem blockTime_fresh_each_turn :
  (30 * defaultBlockTime = time.Minute)%Z
  ∧ ∀ (pre post : list wakeup) (wk : wakeup) (s0 s1 : State)
      (t1 : list Call),
      Run pre s0 = (Running, s1, t1) →
      (∀ blockTimer,
         asBlockTimer (bot (eng s0)) = Some blockTimer →
         ∃ t2, trace (Run (pre ++ wk :: post) s0)
               = t1 ++ CallBlockTime
                  :: CallAfter (BlockTime blockTimer (world s1)).1 :: t2)
      ∧ (asBlockTimer (bot (eng s0)) = None →
         ∃ t2, trace (Run (pre ++ wk :: post) s0)
               = t1 ++ CallAfter defaultBlockTime :: t2).
Proof.
  split; [done|]. intros pre post wk s0 s1 t1 Hpre.
  destruct (Run_running _ _ _ _ Hpre) as [(Hbot & _) Hgo].
  rewrite (Run_resume _ (wk :: post) _ _ _ Hpre). cbn [trace snd].
  assert (∃ t2, trace (serve (wk :: post) s1)
                = trace (blockTime s1)
                    ++ CallAfter (value (blockTime s1)) :: t2) as [t2 Ht].
  { assert (∃ t, trace (iteration wk s1)
                 = trace (blockTime s1)
                     ++ CallAfter (value (blockTime s1)) :: t) as [t Hi].
    { destruct wk.
      - rewrite iteration_StopSig. by eexists.
      - rewrite iteration_Timer. cbn zeta.
        destruct (value (updateMonitors _)); [destruct (asFailer _)|];
          by eexists. }
    rewrite serve_unfold, loop_cons by done. cbn zeta.
    destruct (value (iteration wk s1)); cbn [value final trace fst snd].
    - destruct (asTearer _); cbn [trace snd]; rewrite Hi;
        rewrite <- ?app_assoc; by eexists.
    - destruct (value (loop post _)); [destruct (asTearer _)|];
        cbn [trace snd]; rewrite Hi; rewrite <- ?app_assoc; by eexists. }
  rewrite Ht, blockTime_unfold, Hbot. split.
  - intros blockTimer ->. by eexists.
  - intros ->. by eexists.
Qed.
End RunLoop.

(** ** A monitor left behind *)
Section Orphans.
Context `{Packages}.

Ltac reg_simpl :=
  unfold orphaned, handles_allocated, set_registry, clist.PushBack,
    clist.Remove;
  cbn [eng world bot stop monitors userMonitors fst snd final
       clist.elems clist.alloc clist.ptr clist.Value].

Lemma unlink_keeps {V} (el : clist.Element V) p es :
  el ∈ es → clist.ptr el ≠ p → el ∈ clist.unlink p es.
Proof.
  intros Hin Hne. induction es as [|e es IH]; [done|]. cbn [clist.unlink].
  apply elem_of_cons in Hin as [->|Hin].
  - destruct (Nat.eqb_spec (clist.ptr e) p); [done|]. apply elem_of_cons.
    by left.
  - destruct (Nat.eqb (clist.ptr e) p); [done|]. apply elem_of_cons.
    right. by apply IH.
Qed.

Lemma orphaned_same_setup el e e' :
  same_setup e e' → orphaned el e → orphaned el e'.
Proof.
  intros (_ & Hm & Hu). unfold orphaned, handles_allocated.
  by rewrite Hm, Hu.
Qed.

Lemma call_eng {A} c (f : World → A * World) s :
  eng (final (call c f s)) = eng s.
Proof. unfold call. by destruct (f (world s)). Qed.

Lemma Run_same_setup sched s :
  same_setup (eng s) (eng (final (Run sched s))).
Proof.
  assert (∀ s', same_setup (eng s') (eng (final (serve sched s'))))
    as Hserve.
  { intros s'. rewrite serve_unfold. cbn zeta.
    pose proof (loop_same_setup sched s') as Hl.
    destruct (value (loop sched s')); [destruct (asTearer _)|]; done. }
  rewrite Run_unfold. destruct (asLoader (bot (eng s))) as [loader|];
    [|apply Hserve].
  cbn zeta. destruct (SetUp loader (world s)).1; [done|].
  apply (Hserve {| eng := eng s; world := (SetUp loader (world s)).2 |}).
Qed.

Lemma WatchUser_orphaned el user s :
  orphaned el (eng s) → orphaned el (eng (final (WatchUser user s))).
Proof.
  intros (Hin & Hlt & Hfree & Hall).
  destruct (asUserHandler (bot (eng s))) as [han|] eqn:Hhan;
    [|by rewrite WatchUser_unable].
  destruct (monitor_UserMonitor han user (world s)) as [[mon|err] w] eqn:Hm;
    [|by erewrite WatchUser_refused].
  erewrite WatchUser_done by done. reg_simpl. repeat split.
  - apply elem_of_app. by left.
  - lia.
  - intros u [[_ Heq]|[_ Hold]]%lookup_insert_Some; [lia|].
    by apply (Hfree u).
  - intros u elem [[_ <-]|[_ Hold]]%lookup_insert_Some; reg_simpl; [lia|].
    specialize (Hall u elem Hold). lia.
Qed.

Lemma UnwatchUser_orphaned el user s :
  orphaned el (eng s) → orphaned el (eng (final (UnwatchUser user s))).
Proof.
  intros (Hin & Hlt & Hfree & Hall).
  destruct (userMonitors (eng s) !! user) as [elem|] eqn:Hel;
    [|by rewrite UnwatchUser_absent].
  rewrite (UnwatchUser_present _ _ _ Hel). reg_simpl. repeat split.
  - apply unlink_keeps; [done|]. intros Heq. apply (Hfree user).
    by rewrite Heq.
  - done.
  - intros u [_ Hold]%lookup_delete_Some. by apply (Hfree u).
  - intros u p [_ Hold]%lookup_delete_Some. reg_simpl. by apply (Hall u).
Qed.

Lemma invoke_orphaned el m s :
  orphaned el (eng s) → orphaned el (eng (invoke m s)).
Proof.
  intros Hor. destruct m; cbn [invoke];
    try (unfold Reply, SendMessage, SelfPost, LinkPost, DigestThread;
         by rewrite call_eng).
  - by apply WatchUser_orphaned.
  - by apply UnwatchUser_orphaned.
  - done.
  - eapply orphaned_same_setup; [apply Run_same_setup|done].
Qed.

Lemma invoke_all_orphaned el ms s :
  orphaned el (eng s) → orphaned el (eng (invoke_all ms s)).
Proof.
  revert s. induction ms as [|m ms IH]; intros s Hor; [done|].
  cbn. apply IH. by apply invoke_orphaned.
Qed.

(** C3: [WatchUser(u)] twice and then [UnwatchUser(u)] leaves the element
    that the first call pushed in [e.monitors] although [u] is no longer a
    key of [e.userMonitors]; after any further calls of exported methods
    that element is still in the list and its monitor is in the snapshot of
    every polling pass. *)
Theorem rewatched_monitor_is_orphaned (user : string) (s0 : State)
    (han : UserHandler) (mon1 mon2 : Monitor) (w1 w2 : World)
    (ms : list method) :
  handles_allocated (eng s0) →
  asUserHandler (bot (eng s0)) = Some han →
  monitor_UserMonitor han user (world s0) = (inl mon1, w1) →
  monitor_UserMonitor han user w1 = (inl mon2, w2) →
  let first := {| clist.ptr := clist.alloc (monitors (eng s0));
                  clist.Value := mon1 |} in
  let s1 := final (WatchUser user s0) in
  let s2 := final (WatchUser user s1) in
  let s3 := final (UnwatchUser user s2) in
  clist.elems (monitors (eng s1)) = clist.elems (monitors (eng s0)) ++ [first]
  ∧ userMonitors (eng s1) !! user = Some (clist.ptr first)
  ∧ userMonitors (eng s2) !! user = Some (S (clist.ptr first))
  ∧ userMonitors (eng s3) !! user = None
  ∧ first ∈ clist.elems (monitors (eng (invoke_all ms s3)))
  ∧ mon1 ∈ snapshot (eng (invoke_all ms s3)).
Proof.
  intros Hall Hhan Hm1 Hm2 first s1 s2 s3.
  assert (s1 = {| eng := set_registry
                           (clist.PushBack mon1 (monitors (eng s0))).1
                           (<[user := clist.alloc (monitors (eng s0))]>
                              (userMonitors (eng s0))) (eng s0);
                  world := w1 |}) as Hs1.
  { unfold s1. by erewrite WatchUser_done. }
  assert (s2 = {| eng := set_registry
                           (clist.PushBack mon2 (monitors (eng s1))).1
                           (<[user := clist.alloc (monitors (eng s1))]>
                              (userMonitors (eng s1))) (eng s1);
                  world := w2 |}) as Hs2.
  { unfold s2. erewrite WatchUser_done; [done| |]; by rewrite Hs1. }
  assert (userMonitors (eng s2) !! user = Some (S (clist.ptr first)))
    as Hl2.
  { rewrite Hs2. reg_simpl. rewrite lookup_insert_eq. by rewrite Hs1. }
  clearbody s1 s2.
  assert (orphaned first (eng s3)) as Hor.
  { unfold s3. rewrite (UnwatchUser_present _ _ _ Hl2). unfold first.
    reg_simpl. repeat split.
    - apply unlink_keeps; [|reg_simpl; lia]. rewrite Hs2. reg_simpl.
      apply elem_of_app. left. rewrite Hs1. reg_simpl. apply elem_of_app.
      right. by apply list_elem_of_singleton.
    - rewrite Hs2, Hs1. reg_simpl. lia.
    - rewrite Hs2, Hs1. reg_simpl. rewrite delete_insert_eq.
      intros u
        [Hne [[Heq _]|[_ Hold]]%lookup_insert_Some]%lookup_delete_Some;
        [done|].
      specialize (Hall u _ Hold). lia.
    - rewrite Hs2, Hs1. reg_simpl. rewrite delete_insert_eq.
      intros u p
        [Hne [[Heq _]|[_ Hold]]%lookup_insert_Some]%lookup_delete_Some;
        [done|].
      reg_simpl. specialize (Hall u _ Hold). lia. }
  repeat split.
  - by rewrite Hs1.
  - rewrite Hs1. reg_simpl. by rewrite lookup_insert_eq.
  - done.
  - unfold s3. rewrite (UnwatchUser_present _ _ _ Hl2). reg_simpl.
    by rewrite lookup_delete_eq.
  - by apply invoke_all_orphaned.
  - apply (invoke_all_orphaned _ ms) in Hor as [Hin _].
    unfold snapshot, clist.values.
    by apply (list_elem_of_fmap_2 clist.Value) in Hin.
Qed.
End Orphans.

(** ** The registry that [WatchUser] and [UnwatchUser] keep *)
Section RegistryInvariant.
Context `{Packages}.

Lemma unlink_ptrs_sub {V} q p (es : list (clist.Element V)) :
  q ∈ clist.ptr <$> clist.unlink p es → q ∈ clist.ptr <$> es.
Proof.
  induction es as [|e es IH]; [done|]. cbn [clist.unlink].
  destruct (Nat.eqb (clist.ptr e) p); rewrite !fmap_cons, ?elem_of_cons;
    [by right|].
  intros [->|Hin]; [by left | right; by apply IH].
Qed.

Lemma unlink_ptrs_other {V} q p (es : list (clist.Element V)) :
  q ≠ p → q ∈ clist.ptr <$> es → q ∈ clist.ptr <$> clist.unlink p es.
Proof.
  intros Hne. induction es as [|e es IH]; [done|]. cbn [clist.unlink].
  rewrite fmap_cons, elem_of_cons.
  destruct (Nat.eqb_spec (clist.ptr e) p) as [Heq|_].
  - intros [->|Hin]; [by rewrite Heq in Hne | done].
  - rewrite fmap_cons, elem_of_cons. intros [->|Hin]; [by left|].
    right. by apply IH.
Qed.

Lemma unlink_NoDup {V} p (es : list (clist.Element V)) :
  NoDup (clist.ptr <$> es) → NoDup (clist.ptr <$> clist.unlink p es).
Proof.
  induction es as [|e es IH]; [done|]. cbn [clist.unlink].
  rewrite fmap_cons, NoDup_cons. intros [Hnew Hes].
  destruct (Nat.eqb (clist.ptr e) p); [done|].
  rewrite fmap_cons, NoDup_cons. split; [|by apply IH].
  intros Hin. by apply Hnew, (unlink_ptrs_sub _ p).
Qed.

(** [Remove] takes out the first element at address [p] and keeps the
    others in their order. *)
Lemma unlink_split {V} p (es : list (clist.Element V)) :
  p ∈ clist.ptr <$> es →
  ∃ l1 el l2, es = l1 ++ el :: l2 ∧ clist.ptr el = p
              ∧ (p ∉ clist.ptr <$> l1) ∧ clist.unlink p es = l1 ++ l2.
Proof.
  induction es as [|e es IH]; [by intros ?%elem_of_nil|].
  rewrite fmap_cons, elem_of_cons. cbn [clist.unlink]. intros Hin.
  destruct (Nat.eqb_spec (clist.ptr e) p) as [Heq|Hne].
  - exists [], e, es. repeat split; [done|]. by intros ?%elem_of_nil.
  - destruct Hin as [->|Hin]; [done|].
    destruct (IH Hin) as (l1 & el & l2 & -> & Hp & Hl1 & Hun).
    exists (e :: l1), el, l2. rewrite Hun. repeat split; [done|].
    rewrite fmap_cons, not_elem_of_cons. split; [congruence | done].
Qed.

Lemma unlink_absent {V} p (es : list (clist.Element V)) :
  p ∉ clist.ptr <$> es → clist.unlink p es = es.
Proof.
  induction es as [|e es IH]; [done|].
  rewrite fmap_cons, not_elem_of_cons. intros [Hne Hes]. cbn [clist.unlink].
  destruct (Nat.eqb_spec (clist.ptr e) p); [congruence|]. by rewrite IH.
Qed.

Lemma unlink_pushed {V} p (v : V) (es : list (clist.Element V)) :
  p ∉ clist.ptr <$> es →
  clist.unlink p (es ++ [{| clist.ptr := p; clist.Value := v |}]) = es.
Proof.
  induction es as [|e es IH]; cbn [app clist.unlink clist.ptr].
  - by rewrite Nat.eqb_refl.
  - rewrite fmap_cons, not_elem_of_cons. intros [Hne Hes].
    destruct (Nat.eqb_spec (clist.ptr e) p); [congruence|]. by rewrite IH.
Qed.

Lemma WatchUser_registry_ok user s :
  registry_ok (eng s) → registry_ok (eng (final (WatchUser user s))).
Proof.
  intros (Hnd & Hlt & Hlive & Hinj).
  destruct (asUserHandler (bot (eng s))) as [han|] eqn:Hhan;
    [|by rewrite WatchUser_unable].
  destruct (monitor_UserMonitor han user (world s)) as [[mon|err] w] eqn:Hm;
    [|by erewrite WatchUser_refused].
  erewrite WatchUser_done by done.
  unfold registry_ok, element_ptrs, set_registry, clist.PushBack in *.
  cbn [eng monitors userMonitors final fst snd clist.elems clist.alloc].
  rewrite fmap_app. cbn [fmap list_fmap clist.ptr].
  assert (clist.alloc (monitors (eng s))
          ∉ clist.ptr <$> clist.elems (monitors (eng s))) as Hfresh.
  { intros Hin%Hlt. lia. }
  repeat split.
  - apply NoDup_app. repeat split; [done| |apply NoDup_singleton].
    intros p Hp ->%list_elem_of_singleton. done.
  - intros p [Hp%Hlt| ->%list_elem_of_singleton]%elem_of_app; lia.
  - intros u p [[_ <-]|[_ Hold]]%lookup_insert_Some; apply elem_of_app.
    + right. by apply list_elem_of_singleton.
    + left. by eapply Hlive.
  - intros u1 u2 p [[<- <-]|[Hne1 Hold1]]%lookup_insert_Some
      [[<- Heq]|[Hne2 Hold2]]%lookup_insert_Some.
    + done.
    + by apply Hlive in Hold2.
    + subst p. by apply Hlive in Hold1.
    + by eapply Hinj.
Qed.

Lemma UnwatchUser_registry_ok user s :
  registry_ok (eng s) → registry_ok (eng (final (UnwatchUser user s))).
Proof.
  intros (Hnd & Hlt & Hlive & Hinj).
  destruct (userMonitors (eng s) !! user) as [elem|] eqn:Hel;
    [|by rewrite UnwatchUser_absent].
  rewrite (UnwatchUser_present _ _ _ Hel).
  unfold registry_ok, element_ptrs, set_registry, clist.Remove in *.
  cbn [eng monitors userMonitors clist.elems clist.alloc final fst snd].
  repeat split.
  - by apply unlink_NoDup.
  - intros p Hp%unlink_ptrs_sub. by apply Hlt.
  - intros u p [Hne Hold]%lookup_delete_Some.
    apply unlink_ptrs_other; [|by eapply Hlive].
    intros ->. apply Hne. by eapply Hinj.
  - intros u1 u2 p [_ Hold1]%lookup_delete_Some [_ Hold2]%lookup_delete_Some.
    by eapply Hinj.
Qed.

Lemma registry_ok_same_setup e e' :
  same_setup e e' → registry_ok e → registry_ok e'.
Proof.
  intros (_ & Hm & Hu). unfold registry_ok, element_ptrs.
  by rewrite Hm, Hu.
Qed.

Lemma invoke_registry_ok m s :
  registry_ok (eng s) → registry_ok (eng (invoke m s)).
Proof.
  intros Hok. destruct m; cbn [invoke];
    try (unfold Reply, SendMessage, SelfPost, LinkPost, DigestThread;
         by rewrite call_eng).
  - by apply WatchUser_registry_ok.
  - by apply UnwatchUser_registry_ok.
  - done.
  - eapply registry_ok_same_setup; [apply Run_same_setup|done].
Qed.

Lemma empty_registry_ok b halted :
  registry_ok {| bot := b; stop := halted; monitors := clist.New;
                 userMonitors := ∅ |}.
Proof.
  unfold registry_ok, element_ptrs. cbn. repeat split.
  - apply NoDup_nil_2.
  - by intros p ?%elem_of_nil.
  - intros user p Hl. by rewrite lookup_empty in Hl.
  - intros u1 u2 p Hl. by rewrite lookup_empty in Hl.
Qed.

(** X1: a [WatchUser] that succeeds makes the one call to
    [monitor.UserMonitor], pushes the new monitor at the back of
    [e.monitors] whether or not the user was watched already, stores the
    new element under the user and leaves every other key, the bot and the
    stop flag as they were. *)
Theorem WatchUser_registers (user : string) (s : State) (han : UserHandler)
    (mon : Monitor) (w : World) :
  asUserHandler (bot (eng s)) = Some han →
  monitor_UserMonitor han user (world s) = (inl mon, w) →
  let s' := final (WatchUser user s) in
  let elem := clist.alloc (monitors (eng s)) in
  value (WatchUser user s) = None
  ∧ trace (WatchUser user s) = [CallUserMonitor user]
  ∧ world s' = w
  ∧ clist.elems (monitors (eng s'))
    = clist.elems (monitors (eng s))
        ++ [{| clist.ptr := elem; clist.Value := mon |}]
  ∧ clist.Len (monitors (eng s')) = S (clist.Len (monitors (eng s)))
  ∧ userMonitors (eng s') !! user = Some elem
  ∧ (∀ other, other ≠ user →
       userMonitors (eng s') !! other = userMonitors (eng s) !! other)
  ∧ bot (eng s') = bot (eng s) ∧ stop (eng s') = stop (eng s).
Proof.
  intros Hhan Hmon s' elem. unfold s'.
  rewrite (WatchUser_done _ _ _ _ _ Hhan Hmon).
  unfold set_registry, clist.PushBack, clist.Len.
  cbn [value final trace fst snd eng world monitors userMonitors bot stop
       clist.elems clist.alloc].
  repeat split.
  - rewrite length_app. cbn. lia.
  - by rewrite lookup_insert_eq.
  - intros other Hne. by rewrite lookup_insert_ne.
Qed.

(** X2: from an engine with an empty registry, whatever exported methods
    are called, the elements of [e.monitors] stay distinct, and
    [e.userMonitors] sends distinct users to distinct elements that are in
    the list: the monitor of every watched user is in the snapshot of the
    next pass. *)
Theorem registry_ok_reachable (b : Bot) (halted : bool) (w : World)
    (ms : list method) :
  let s := invoke_all ms
             {| eng := {| bot := b; stop := halted; monitors := clist.New;
                          userMonitors := ∅ |};
                world := w |} in
  registry_ok (eng s)
  ∧ ∀ user p, userMonitors (eng s) !! user = Some p →
      ∃ el, el ∈ clist.elems (monitors (eng s)) ∧ clist.ptr el = p
            ∧ clist.Value el ∈ snapshot (eng s).
Proof.
  intros s.
  assert (registry_ok (eng s)) as Hok.
  { assert (∀ s0, registry_ok (eng s0) →
                  registry_ok (eng (invoke_all ms s0))) as Hall.
    { induction ms as [|m ms IH]; intros s0 Hs0; [done|].
      cbn. apply IH. by apply invoke_registry_ok. }
    apply Hall, empty_registry_ok. }
  split; [done|]. intros user p Hl.
  destruct Hok as (_ & _ & Hlive & _).
  apply Hlive, list_elem_of_fmap in Hl as (el & -> & Hin).
  exists el. repeat split; [done|].
  unfold snapshot, clist.values. by apply list_elem_of_fmap_2.
Qed.
(** X3: on a registry that is in order, [UnwatchUser] of a watched user
    calls no collaborator, takes exactly the user's element out of
    [e.monitors], keeping the others in their order, and deletes the
    user's key only. *)
Theorem UnwatchUser_removes_one (user : string) (s : State) (p : nat) :
  registry_ok (eng s) →
  userMonitors (eng s) !! user = Some p →
  let s' := final (UnwatchUser user s) in
  trace (UnwatchUser user s) = []
  ∧ world s' = world s
  ∧ (∃ l1 el l2,
       clist.elems (monitors (eng s)) = l1 ++ el :: l2
       ∧ clist.ptr el = p
       ∧ clist.elems (monitors (eng s')) = l1 ++ l2)
  ∧ (p ∉ element_ptrs (eng s'))
  ∧ S (clist.Len (monitors (eng s'))) = clist.Len (monitors (eng s))
  ∧ userMonitors (eng s') !! user = None
  ∧ (∀ other, other ≠ user →
       userMonitors (eng s') !! other = userMonitors (eng s) !! other).
Proof.
  intros (Hnd & _ & Hlive & _) Hel s'. unfold s'.
  rewrite (UnwatchUser_present _ _ _ Hel).
  unfold element_ptrs, set_registry, clist.Remove, clist.Len in *.
  cbn [value final trace fst snd eng world monitors userMonitors
       clist.elems clist.alloc].
  destruct (unlink_split p (clist.elems (monitors (eng s))))
    as (l1 & el & l2 & Hes & Hp & Hl1 & Hun); [by eapply Hlive|].
  rewrite Hun. rewrite Hes in Hnd |- *.
  rewrite fmap_app, fmap_cons, NoDup_app, NoDup_cons, Hp in Hnd.
  destruct Hnd as (_ & _ & Hl2 & _).
  repeat split.
  - by exists l1, el, l2.
  - rewrite fmap_app, not_elem_of_app. done.
  - rewrite !length_app. cbn. lia.
  - by rewrite lookup_delete_eq.
  - intros other Hne. by rewrite lookup_delete_ne.
Qed.

(** X4: on a registry that is in order, watching a user who is not
    watched and unwatching that user again gives back the list of
    monitors and the user map as they were. *)
Theorem WatchUser_UnwatchUser_round_trip (user : string) (s : State)
    (han : UserHandler) (mon : Monitor) (w : World) :
  registry_ok (eng s) →
  userMonitors (eng s) !! user = None →
  asUserHandler (bot (eng s)) = Some han →
  monitor_UserMonitor han user (world s) = (inl mon, w) →
  let s' := final (UnwatchUser user (final (WatchUser user s))) in
  clist.elems (monitors (eng s')) = clist.elems (monitors (eng s))
  ∧ userMonitors (eng s') = userMonitors (eng s)
  ∧ snapshot (eng s') = snapshot (eng s)
  ∧ world s' = w.
Proof.
  intros (_ & Hlt & _ & _) Hnew Hhan Hmon s'. unfold s'.
  rewrite (WatchUser_done _ _ _ _ _ Hhan Hmon).
  erewrite UnwatchUser_present; last first.
  { unfold set_registry. cbn. apply lookup_insert_eq. }
  unfold snapshot, clist.values, element_ptrs, set_registry, clist.Remove,
    clist.PushBack in *.
  cbn [value final trace fst snd eng world monitors userMonitors
       clist.elems clist.alloc].
  rewrite unlink_pushed; last first.
  { intros Hin%Hlt. lia. }
  by rewrite delete_insert_eq, delete_id.
Qed.
End RegistryInvariant.

(** ** What [Run] does and does not do *)
Section RunFacts.
Context `{Packages}.

Lemma iteration_eng wk s :
  eng (final (iteration wk s))
  = match wk with StopSig => set_stop true (eng s) | Timer => eng s end.
Proof.
  destruct wk.
  - by rewrite iteration_StopSig.
  - rewrite iteration_Timer. cbn zeta.
    destruct (value _); [destruct (asFailer _)|]; cbn [final fst snd eng];
      by rewrite ?updateMonitors_eng, ?blockTime_eng.
Qed.

(** A loop whose turns never return runs until it is stopped. *)
Lemma loop_value_no_return sched s :
  (∀ wk s', bot (eng s') = bot (eng s) →
            monitors (eng s') = monitors (eng s) →
            value (iteration wk s') = None) →
  value (loop sched s)
  = if stop (eng s) || has_StopSig sched then Returned None else Running.
Proof.
  revert s. induction sched as [|wk sched IH]; intros s Hnone;
    destruct (stop (eng s)) eqn:Hstop.
  - by rewrite loop_stopped.
  - by rewrite loop_nil.
  - by rewrite loop_stopped.
  - rewrite loop_cons by done. cbn zeta. rewrite (Hnone wk s) by done.
    cbn [value fst]. rewrite IH; rewrite iteration_eng.
    + destruct wk; cbn; [done | by rewrite Hstop].
    + intros wk' s' Hb Hm. apply Hnone; destruct wk; by rewrite ?Hb, ?Hm.
Qed.

Lemma Run_value sched s :
  (∀ loader, asLoader (bot (eng s)) = Some loader →
             (SetUp loader (world s)).1 = None) →
  ∃ w, value (Run sched s) = value (loop sched {| eng := eng s; world := w |})
       ∧ trace (Run sched s)
         = match asLoader (bot (eng s)) with
           | Some _ => [CallSetUp]
           | None => []
           end ++ trace (serve sched {| eng := eng s; world := w |}).
Proof.
  intros Hsetup. rewrite Run_unfold.
  destruct (asLoader (bot (eng s))) as [loader|].
  - cbn zeta. rewrite (Hsetup loader eq_refl).
    exists (SetUp loader (world s)).2. by rewrite <- serve_value.
  - exists (world s). rewrite <- serve_value. by destruct s.
Qed.

Lemma updateEach_all_quiet mons s :
  (∀ mon w, mon ∈ mons → (mon_Update mon w).1 = None) →
  value (updateEach mons s) = None
  ∧ trace (updateEach mons s) = CallUpdate <$> mons.
Proof.
  revert s. induction mons as [|mon mons IH]; intros s Hq; [done|].
  cbn [updateEach]. rewrite bind_unfold.
  assert (value (call (CallUpdate mon) (mon_Update mon) s) = None
          ∧ trace (call (CallUpdate mon) (mon_Update mon) s)
            = [CallUpdate mon]) as [-> ->].
  { unfold call. specialize (Hq mon (world s)).
    destruct (mon_Update mon (world s)) as [r w]. cbn in *.
    split; [|done]. apply Hq, elem_of_cons. by left. }
  cbn [value trace fst snd].
  destruct (IH (final (call (CallUpdate mon) (mon_Update mon) s)))
    as [-> ->]; [|done].
  intros mon' w Hin. apply Hq, elem_of_cons. by right.
Qed.

Lemma serve_stopped sched s :
  stop (eng s) = true →
  serve sched s
  = match asTearer (bot (eng s)) with
    | Some tearer =>
        (Returned None,
         {| eng := eng s; world := TearDown tearer (world s) |},
         [CallTearDown])
    | None => (Returned None, s, [])
    end.
Proof.
  intros Hstop. rewrite serve_unfold, loop_stopped by done. cbn zeta.
  cbn [value final trace fst snd]. by destruct (asTearer (bot (eng s))).
Qed.

Lemma invoke_stop m s :
  stop (eng s) = true → stop (eng (invoke m s)) = true.
Proof.
  intros Hstop. destruct m; cbn [invoke];
    try (unfold Reply, SendMessage, SelfPost, LinkPost, DigestThread;
         by rewrite call_eng).
  - destruct (asUserHandler (bot (eng s))) as [han|] eqn:Hhan;
      [|by rewrite WatchUser_unable].
    destruct (monitor_UserMonitor han user (world s)) as [[mon|err] w]
      eqn:Hm; [by erewrite WatchUser_done | by erewrite WatchUser_refused].
  - destruct (userMonitors (eng s) !! user) as [elem|] eqn:Hel;
      [by rewrite (UnwatchUser_present _ _ _ Hel)
      | by rewrite UnwatchUser_absent].
  - done.
  - rewrite Run_unfold. destruct (asLoader (bot (eng s))) as [loader|].
    + cbn zeta. destruct (SetUp loader (world s)).1; [done|].
      rewrite serve_stopped by done. by destruct (asTearer _).
    + rewrite serve_stopped by done. by destruct (asTearer _).
Qed.

(** X5: [e.stop] is never reset: once it is set, it stays set whatever
    exported methods are called, and every later [Run] returns without
    asking for an interval, waiting or polling. *)
Theorem stopped_engine_never_polls (s : State) (ms : list method)
    (sched : list wakeup) :
  stop (eng s) = true →
  let s' := invoke_all ms s in
  stop (eng s') = true
  ∧ Forall (λ c, ¬ loop_call c) (trace (Run sched s'))
  ∧ value (Run sched s') ≠ Running.
Proof.
  intros Hstop s'.
  assert (stop (eng s') = true) as Hstop'.
  { unfold s'. clear s'. revert s Hstop.
    induction ms as [|m ms IH]; intros s Hstop; [done|].
    cbn. by apply IH, invoke_stop. }
  split; [done|]. rewrite Run_unfold.
  destruct (asLoader (bot (eng s'))) as [loader|].
  - cbn zeta. destruct (SetUp loader (world s')).1.
    + split; [|done]. repeat constructor. by intros [].
    + rewrite serve_stopped by done.
      destruct (asTearer _); cbn; (split; [|done]);
        repeat constructor; by intros [].
  - rewrite serve_stopped by done.
    destruct (asTearer _); cbn; (split; [|done]);
      repeat constructor; by intros [].
Qed.

(** X6: when no monitor of the registry ever fails, as when there is
    none, [Run] returns [nil] exactly when the stop flag is set or a stop
    signal arrives, is in its loop otherwise, and never calls [Fail]. *)
Theorem quiet_monitors_Run (sched : list wakeup) (s : State) :
  (∀ mon w, mon ∈ snapshot (eng s) → (mon_Update mon w).1 = None) →
  (∀ loader, asLoader (bot (eng s)) = Some loader →
             (SetUp loader (world s)).1 = None) →
  value (Run sched s)
  = (if stop (eng s) || has_StopSig sched then Returned None else Running)
  ∧ Forall (λ c, ∀ err, c ≠ CallFail err) (trace (Run sched s)).
Proof.
  intros Hquiet Hsetup.
  assert (∀ s', monitors (eng s') = monitors (eng s) →
                value (updateMonitors s') = None) as Hpass.
  { intros s' Hm. rewrite updateMonitors_unfold.
    apply updateEach_all_quiet. unfold snapshot in *. by rewrite Hm. }
  assert (∀ wk s', monitors (eng s') = monitors (eng s) →
                   value (iteration wk s') = None
                   ∧ Forall (λ c, ∀ err, c ≠ CallFail err)
                       (trace (iteration wk s'))) as Hturn.
  { intros wk s' Hm.
    assert (Forall (λ c, ∀ err, c ≠ CallFail err) (trace (blockTime s')))
      as Hb.
    { rewrite blockTime_unfold. destruct (asBlockTimer _);
        by repeat constructor. }
    destruct wk.
    - rewrite iteration_StopSig. split; [done|]. cbn [trace snd].
      apply Forall_app. split; [done|]. by repeat constructor.
    - rewrite iteration_Timer. cbn zeta.
      rewrite Hpass by by rewrite blockTime_eng.
      split; [done|]. cbn [trace snd]. rewrite !Forall_app.
      repeat split; [done | by repeat constructor |].
      rewrite updateMonitors_unfold.
      destruct (updateEach_all_quiet
                  (snapshot (eng (final (blockTime s'))))
                  (final (blockTime s'))) as [_ ->].
      { unfold snapshot in *. by rewrite blockTime_eng, Hm. }
      apply Forall_fmap, Forall_true. done. }
  assert (∀ s', monitors (eng s') = monitors (eng s) →
                Forall (λ c, ∀ err, c ≠ CallFail err)
                  (trace (serve sched s'))) as Hserve.
  { intros s' Hm.
    assert (Forall (λ c, ∀ err, c ≠ CallFail err) (trace (loop sched s')))
      as Hloop.
    { clear Hsetup. revert s' Hm.
      induction sched as [|wk sched IH]; intros s' Hm;
        destruct (stop (eng s')) eqn:Hstop;
        rewrite ?loop_stopped, ?loop_nil by done; try by constructor.
      rewrite loop_cons by done. cbn zeta.
      destruct (Hturn wk s' Hm) as [-> Ht]. cbn [trace snd].
      apply Forall_app. split; [done|]. apply IH.
      rewrite iteration_eng. by destruct wk. }
    rewrite serve_unfold. cbn zeta.
    destruct (value (loop sched s')); [destruct (asTearer _)|];
      cbn [trace snd]; [|done..].
    apply Forall_app. split; [done|]. by repeat constructor. }
  destruct (Run_value sched s Hsetup) as (w & -> & ->). split.
  - rewrite loop_value_no_return; [done|].
    intros wk s' _ Hm. by apply Hturn.
  - apply Forall_app. split; [|by apply Hserve].
    destruct (asLoader _); by repeat constructor.
Qed.

(** X7: for a bot whose [Fail] always answers false, no polling error
    ends [Run]: it returns [nil] exactly when the stop flag is set or a
    stop signal arrives, and is in its loop otherwise. *)
Theorem forgiving_Failer_Run (sched : list wakeup) (s : State)
    (failer : Failer) :
  asFailer (bot (eng s)) = Some failer →
  (∀ err w, (Fail failer err w).1 = false) →
  (∀ loader, asLoader (bot (eng s)) = Some loader →
             (SetUp loader (world s)).1 = None) →
  value (Run sched s)
  = if stop (eng s) || has_StopSig sched then Returned None else Running.
Proof.
  intros Hfailer Hfalse Hsetup.
  destruct (Run_value sched s Hsetup) as (w & -> & _).
  rewrite loop_value_no_return; [done|].
  intros wk s' Hb _. destruct wk.
  - by rewrite iteration_StopSig.
  - rewrite iteration_Timer. cbn zeta.
    destruct (value (updateMonitors _)); [|done].
    cbn [eng] in Hb. rewrite Hb, Hfailer. cbn [value fst].
    by rewrite Hfalse.
Qed.



Lemma serve_emits sched s :
  Forall (λ c, c = CallTearDown ∨ loop_call c) (trace (serve sched s)).
Proof.
  assert (Forall (λ c, c = CallTearDown ∨ loop_call c)
            (trace (loop sched s))) as Hloop.
  { eapply Forall_impl; [apply loop_emits|]. intros c Hc. by right. }
  rewrite serve_unfold. cbn zeta.
  destruct (value (loop sched s)); [destruct (asTearer _)|];
    cbn [trace snd]; try done.
  apply Forall_app. split; [done|]. apply Forall_singleton. by left.
Qed.

(** X9: a bot that is a [Loader] has its [SetUp] called first and never
    again in the same [Run]; for any other bot [Run] never calls
    [SetUp]. *)
Theorem SetUp_first_and_once (sched : list wakeup) (s : State) :
  (∀ loader, asLoader (bot (eng s)) = Some loader →
     ∃ t, trace (Run sched s) = CallSetUp :: t
          ∧ Forall (λ c, c ≠ CallSetUp) t)
  ∧ (asLoader (bot (eng s)) = None →
     Forall (λ c, c ≠ CallSetUp) (trace (Run sched s))).
Proof.
  assert (∀ s', Forall (λ c, c ≠ CallSetUp) (trace (serve sched s')))
    as Hserve.
  { intros s'. eapply Forall_impl; [apply serve_emits|].
    intros c [->|Hc]; [done | by destruct c]. }
  rewrite Run_unfold. split.
  - intros loader ->. cbn zeta. destruct (SetUp loader (world s)).1.
    + exists []. by split.
    + eexists. split; [done|]. apply Hserve.
  - intros ->. apply Hserve.
Qed.

End RunFacts.

(** ** The engine at work in the small world *)
#[local] Existing Instances Demo.outside Demo.packages.

Lemma start_handles_allocated b : handles_allocated (eng (Demo.start b)).
Proof. intros user elem Hl. cbn in Hl. by rewrite lookup_empty in Hl. Qed.

(** C2: on the engine of a bot that only handles user items, a second
    [WatchUser] of the same user succeeds and leaves two monitors of that
    user in [e.monitors] for one key in [e.userMonitors]; after
    [UnwatchUser] one of them is still in the list. *)
Theorem WatchUser_twice_keeps_both :
  let s1 := final (WatchUser "alice" (Demo.start Demo.watcher)) in
  let s2 := final (WatchUser "alice" s1) in
  let s3 := final (UnwatchUser "alice" s2) in
  value (WatchUser "alice" (Demo.start Demo.watcher)) = None
  ∧ value (WatchUser "alice" s1) = None
  ∧ snapshot (eng s1) = ["alice"]
  ∧ snapshot (eng s2) = ["alice"; "alice"]
  ∧ clist.Len (monitors (eng s2)) = 2
  ∧ size (userMonitors (eng s2)) = 1
  ∧ snapshot (eng s3) = ["alice"]
  ∧ size (userMonitors (eng s3)) = 0.
Proof. vm_compute. repeat split. Qed.

Lemma WatchUser_error_keeps_registry_witness :
  (value (WatchUser "alice" (Demo.start Demo.bare))
     = Some (Errorf "bot cannot handle user posts or comments")
   ∧ final (WatchUser "alice" (Demo.start Demo.bare))
     = Demo.start Demo.bare)
  ∧ (value (WatchUser "" (Demo.watching Demo.watcher ["alice"]))
       = Some Demo.noSuchUser
     ∧ eng (final (WatchUser "" (Demo.watching Demo.watcher ["alice"])))
       = eng (Demo.watching Demo.watcher ["alice"])).
Proof.
  split.
  - apply (proj1 (@WatchUser_error_keeps_registry Demo.outside Demo.packages
                    "alice" (Demo.start Demo.bare))).
    reflexivity.
  - apply (proj2 (@WatchUser_error_keeps_registry Demo.outside Demo.packages
                    "" (Demo.watching Demo.watcher ["alice"]))
             Demo.handler Demo.noSuchUser []);
      reflexivity.
Defined.

Lemma updateMonitors_first_error_witness :
  snapshot (eng (final (WatchUser "bob"
                   (Demo.watching Demo.watcher ["alice"; "down"]))))
  = snapshot (eng (Demo.watching Demo.watcher ["alice"; "down"])) ++ ["bob"]
  ∧ updateMonitors (Demo.watching Demo.watcher ["alice"; "down"; "bob"])
  = (Some Demo.unavailable,
     {| eng := eng (Demo.watching Demo.watcher ["alice"; "down"; "bob"]);
        world := ["alice"; "down"] |},
     [CallUpdate "alice"; CallUpdate "down"])
  ∧ updateMonitors (Demo.watching Demo.watcher ["alice"; "bob"])
    = (None,
       {| eng := eng (Demo.watching Demo.watcher ["alice"; "bob"]);
          world := ["alice"; "bob"] |},
       [CallUpdate "alice"; CallUpdate "bob"]).
Proof.
  split; [|split].
  - apply (proj1 (@updateMonitors_first_error Demo.outside Demo.packages
                    (Demo.watching Demo.watcher ["alice"; "down"]))
             Demo.handler "bob" "bob" []);
      reflexivity.
  - apply (proj1 (proj2 (@updateMonitors_first_error Demo.outside
                           Demo.packages
                           (Demo.watching Demo.watcher
                              ["alice"; "down"; "bob"])))
             ["alice"] "down" ["bob"] Demo.unavailable ["alice"]
             ["alice"; "down"]).
    + reflexivity.
    + apply (@quiet_cons _ Demo.packages "alice" [] [] ["alice"] ["alice"]);
        [reflexivity | apply quiet_nil].
    + reflexivity.
  - apply (proj1 (proj2 (proj2 (@updateMonitors_first_error Demo.outside
                                  Demo.packages
                                  (Demo.watching Demo.watcher
                                     ["alice"; "bob"]))))
             ["alice"; "bob"]).
    apply (@quiet_cons _ Demo.packages "alice" ["bob"] [] ["alice"]
             ["alice"; "bob"]);
      [reflexivity|].
    apply (@quiet_cons _ Demo.packages "bob" [] ["alice"] ["alice"; "bob"]
             ["alice"; "bob"]);
      [reflexivity | apply quiet_nil].
Defined.

Lemma SetUp_error_aborts_Run_witness :
  Run [Timer; Timer] (Demo.watching Demo.broken ["alice"])
  = (Returned (Some Demo.noConfig),
     {| eng := eng (Demo.watching Demo.broken ["alice"]);
        world := ["set up"] |},
     [CallSetUp]).
Proof.
  apply (@SetUp_error_aborts_Run Demo.outside Demo.packages [Timer; Timer]
           (Demo.watching Demo.broken ["alice"]) (Demo.loader false));
    reflexivity.
Defined.

Lemma TearDown_runs_once_witness :
  (∃ t, trace (Run [Timer; StopSig] (Demo.watching Demo.patient ["alice"]))
        = t ++ [CallTearDown]
        ∧ Forall (λ c, c ≠ CallTearDown) t)
  ∧ (∃ t, trace (Run [Timer; Timer] (Demo.watching Demo.strict ["down"]))
          = t ++ [CallTearDown]
          ∧ Forall (λ c, c ≠ CallTearDown) t).
Proof.
  split.
  - refine (proj1 (@TearDown_runs_once Demo.outside Demo.packages
                     [Timer; StopSig] (Demo.watching Demo.patient ["alice"])
                     Demo.tearer _ _) None _).
    + reflexivity.
    + intros loader Hloader. injection Hloader as <-. reflexivity.
    + reflexivity.
  - refine (proj1 (@TearDown_runs_once Demo.outside Demo.packages
                     [Timer; Timer] (Demo.watching Demo.strict ["down"])
                     Demo.tearer _ _) (Some Demo.unavailable) _).
    + reflexivity.
    + intros loader Hloader. discriminate Hloader.
    + reflexivity.
Defined.

Lemma StopSig_ends_Run_witness :
  let s0 := Demo.watching Demo.patient ["alice"; "bob"] in
  value (Run ([Timer] ++ StopSig :: [Timer; Timer]) s0) = Returned None
  ∧ stop (eng (final (Run ([Timer] ++ StopSig :: [Timer; Timer]) s0))) = true
  ∧ ∃ t2, trace (Run ([Timer] ++ StopSig :: [Timer; Timer]) s0)
          = trace (Run [Timer] s0) ++ t2
          ∧ Forall (λ c, ¬ is_Update c) t2.
Proof.
  intros s0.
  apply (@StopSig_ends_Run Demo.outside Demo.packages [Timer] [Timer; Timer]
           s0 (final (Run [Timer] s0)) (trace (Run [Timer] s0))).
  vm_compute. reflexivity.
Defined.

Lemma Fail_decides_after_failed_pass_witness :
  value (Run ([] ++ Timer :: [Timer]) (Demo.watching Demo.watcher ["down"]))
  = Returned (Some Demo.unavailable)
  ∧ value (Run ([] ++ Timer :: [Timer]) (Demo.watching Demo.strict ["down"]))
    = Returned (Some Demo.unavailable)
  ∧ value (Run ([Timer] ++ [Timer]) (Demo.watching Demo.patient ["down"]))
    = Running.
Proof.
  split; [|split].
  - pose (s0 := Demo.watching Demo.watcher ["down"]).
    pose (u := updateMonitors (final (blockTime s0))).
    destruct (@Fail_decides_after_failed_pass Demo.outside Demo.packages
                [] [Timer] s0 s0 (final u) [] (trace u) Demo.unavailable)
      as (Hnone & _).
    + vm_compute. reflexivity.
    + vm_compute. reflexivity.
    + apply Hnone. reflexivity.
  - pose (s0 := Demo.watching Demo.strict ["down"]).
    pose (u := updateMonitors (final (blockTime s0))).
    destruct (@Fail_decides_after_failed_pass Demo.outside Demo.packages
                [] [Timer] s0 s0 (final u) [] (trace u) Demo.unavailable)
      as (_ & Htrue & _).
    + vm_compute. reflexivity.
    + vm_compute. reflexivity.
    + apply (Htrue (Demo.failer true)
               (Fail (Demo.failer true) Demo.unavailable
                  (world (final u))).2);
        reflexivity.
  - pose (s0 := Demo.watching Demo.patient ["down"]).
    pose (s1 := final (Run [Timer] s0)).
    pose (u := updateMonitors (final (blockTime s1))).
    destruct (@Fail_decides_after_failed_pass Demo.outside Demo.packages
                [Timer] [] s0 s1 (final u) (trace (Run [Timer] s0))
                (trace u) Demo.unavailable)
      as (_ & _ & Hfalse).
    + vm_compute. reflexivity.
    + vm_compute. reflexivity.
    + destruct (Hfalse (Demo.failer false)
                  (Fail (Demo.failer false) Demo.unavailable
                     (world (final u))).2)
        as [Hrun _]; [reflexivity | reflexivity |].
      fold s0. rewrite Hrun. reflexivity.
Defined.

(** C1 as stated fails on the code: [Fail] returning true makes [Run]
    return the error, and [Fail] returning false makes it carry on. *)
Lemma Fail_true_does_not_continue :
  ¬ ((Fail (Demo.failer true) Demo.unavailable ["down"]).1 = true →
     value (Run [Timer] (Demo.watching Demo.strict ["down"])) = Running)
  ∧ ¬ ((Fail (Demo.failer false) Demo.unavailable
          ["set up"; "interval"; "down"]).1 = false →
       value (Run [Timer] (Demo.watching Demo.patient ["down"]))
       = Returned (Some Demo.unavailable)).
Proof.
  split; intros Hclaim; specialize (Hclaim eq_refl);
    vm_compute in Hclaim; discriminate Hclaim.
Qed.

Lemma blockTime_fresh_each_turn_witness :
  (∃ t2, trace (Run ([Timer] ++ Timer :: [StopSig])
                  (Demo.watching Demo.patient ["alice"]))
         = trace (Run [Timer] (Demo.watching Demo.patient ["alice"]))
             ++ CallBlockTime
             :: CallAfter
                  (BlockTime Demo.blockTimer
                     (world (final (Run [Timer]
                        (Demo.watching Demo.patient ["alice"]))))).1
             :: t2)
  ∧ (∃ t2, trace (Run ([Timer] ++ StopSig :: [])
                    (Demo.watching Demo.watcher ["alice"]))
           = trace (Run [Timer] (Demo.watching Demo.watcher ["alice"]))
               ++ CallAfter defaultBlockTime :: t2).
Proof.
  split.
  - pose (s0 := Demo.watching Demo.patient ["alice"]).
    refine (proj1 (proj2 (@blockTime_fresh_each_turn Demo.outside
                            Demo.packages)
                     [Timer] [StopSig] Timer s0 (final (Run [Timer] s0))
                     (trace (Run [Timer] s0)) _)
              Demo.blockTimer _).
    + vm_compute. reflexivity.
    + reflexivity.
  - pose (s0 := Demo.watching Demo.watcher ["alice"]).
    refine (proj2 (proj2 (@blockTime_fresh_each_turn Demo.outside
                            Demo.packages)
                     [Timer] [] StopSig s0 (final (Run [Timer] s0))
                     (trace (Run [Timer] s0)) _) _).
    + vm_compute. reflexivity.
    + reflexivity.
Defined.

Lemma rewatched_monitor_is_orphaned_witness :
  let first := {| clist.ptr := 0; clist.Value := "alice" |} in
  let s1 := final (WatchUser "alice" (Demo.start Demo.watcher)) in
  let s2 := final (WatchUser "alice" s1) in
  let s3 := final (UnwatchUser "alice" s2) in
  let ms := [mUnwatchUser "alice"; mWatchUser "bob"; mRun [Timer; StopSig];
             mReply "t1_c0ffee" "thanks"; mStop; mUnwatchUser "bob"] in
  clist.elems (monitors (eng s1)) = [] ++ [first]
  ∧ userMonitors (eng s1) !! "alice" = Some 0
  ∧ userMonitors (eng s2) !! "alice" = Some 1
  ∧ userMonitors (eng s3) !! "alice" = None
  ∧ first ∈ clist.elems (monitors (eng (invoke_all ms s3)))
  ∧ "alice" ∈ snapshot (eng (invoke_all ms s3)).
Proof.
  intros first s1 s2 s3 ms.
  apply (@rewatched_monitor_is_orphaned Demo.outside Demo.packages "alice"
           (Demo.start Demo.watcher) Demo.handler "alice" "alice" [] [] ms).
  - apply start_handles_allocated.
  - reflexivity.
  - reflexivity.
  - reflexivity.
Defined.

Lemma watching_registry_ok b users :
  registry_ok (eng (Demo.watching b users)).
Proof.
  unfold Demo.watching.
  assert (registry_ok (eng (Demo.start b))) as Hstart
    by apply empty_registry_ok.
  revert Hstart. generalize (Demo.start b).
  induction users as [|user users IH]; intros s Hs; [done|].
  cbn [foldl]. by apply IH, WatchUser_registry_ok.
Qed.

Lemma WatchUser_registers_witness :
  let s := Demo.watching Demo.watcher ["alice"] in
  snapshot (eng (final (WatchUser "alice" s))) = snapshot (eng s) ++ ["alice"]
  ∧ userMonitors (eng (final (WatchUser "alice" s))) !! "alice" = Some 1.
Proof.
  intros s.
  destruct (@WatchUser_registers Demo.outside Demo.packages "alice" s
              Demo.handler "alice" [])
    as (_ & _ & _ & Helems & _ & Hlookup & _); [reflexivity..|].
  split; [|exact Hlookup].
  unfold snapshot, clist.values. rewrite Helems, fmap_app. reflexivity.
Defined.

Lemma registry_ok_reachable_witness :
  let ms := [mWatchUser "alice"; mWatchUser "alice"; mUnwatchUser "alice";
             mWatchUser "bob"; mRun [Timer; StopSig]] in
  let s := invoke_all ms (Demo.start Demo.watcher) in
  ∃ el, el ∈ clist.elems (monitors (eng s)) ∧ clist.ptr el = 2
        ∧ clist.Value el ∈ snapshot (eng s).
Proof.
  intros ms s.
  apply (proj2 (@registry_ok_reachable Demo.outside Demo.packages
                  Demo.watcher false [] ms) "bob" 2).
  reflexivity.
Defined.

Lemma UnwatchUser_removes_one_witness :
  let s := Demo.watching Demo.watcher ["alice"; "bob"; "carol"] in
  snapshot (eng (final (UnwatchUser "bob" s))) = ["alice"; "carol"]
  ∧ S (clist.Len (monitors (eng (final (UnwatchUser "bob" s)))))
    = clist.Len (monitors (eng s)).
Proof.
  intros s.
  destruct (@UnwatchUser_removes_one Demo.outside "bob" s 1)
    as (_ & _ & _ & _ & Hlen & _).
  - apply watching_registry_ok.
  - reflexivity.
  - split; [reflexivity | exact Hlen].
Defined.

Lemma WatchUser_UnwatchUser_round_trip_witness :
  let s := Demo.watching Demo.watcher ["alice"] in
  userMonitors (eng (final (UnwatchUser "bob" (final (WatchUser "bob" s)))))
  = userMonitors (eng s)
  ∧ snapshot (eng (final (UnwatchUser "bob" (final (WatchUser "bob" s)))))
    = snapshot (eng s).
Proof.
  intros s.
  destruct (@WatchUser_UnwatchUser_round_trip Demo.outside Demo.packages
              "bob" s Demo.handler "bob" [])
    as (_ & Hmap & Hsnap & _).
  - apply watching_registry_ok.
  - reflexivity.
  - reflexivity.
  - reflexivity.
  - by split.
Defined.

Lemma stopped_engine_never_polls_witness :
  let s := final (Run [Timer; StopSig]
                    (Demo.watching Demo.patient ["alice"])) in
  let s' := invoke_all [mWatchUser "bob"; mReply "t1_c0ffee" "thanks"] s in
  stop (eng s') = true
  ∧ Forall (λ c, ¬ loop_call c) (trace (Run [Timer; Timer] s'))
  ∧ value (Run [Timer; Timer] s') ≠ Running.
Proof.
  intros s.
  apply (@stopped_engine_never_polls Demo.outside Demo.packages s
           [mWatchUser "bob"; mReply "t1_c0ffee" "thanks"] [Timer; Timer]).
  reflexivity.
Defined.

Lemma quiet_monitors_Run_witness :
  value (Run [Timer; Timer; StopSig; Timer]
           (Demo.watching Demo.watcher ["alice"; "bob"]))
  = Returned None
  ∧ Forall (λ c, ∀ err, c ≠ CallFail err)
      (trace (Run [Timer; Timer; StopSig; Timer]
                (Demo.watching Demo.watcher ["alice"; "bob"]))).
Proof.
  apply (@quiet_monitors_Run Demo.outside Demo.packages
           [Timer; Timer; StopSig; Timer]
           (Demo.watching Demo.watcher ["alice"; "bob"])).
  - intros mon w Hin.
    change (mon ∈ ["alice"; "bob"]) in Hin.
    apply elem_of_cons in Hin as [->|Hin]; [reflexivity|].
    apply list_elem_of_singleton in Hin as ->. reflexivity.
  - intros loader Hloader. discriminate Hloader.
Defined.

Lemma forgiving_Failer_Run_witness :
  value (Run [Timer; Timer; Timer] (Demo.watching Demo.patient ["down"]))
  = Running
  ∧ value (Run [Timer; StopSig] (Demo.watching Demo.patient ["down"]))
    = Returned None.
Proof.
  split.
  - apply (@forgiving_Failer_Run Demo.outside Demo.packages
             [Timer; Timer; Timer] (Demo.watching Demo.patient ["down"])
             (Demo.failer false)).
    + reflexivity.
    + intros err w. reflexivity.
    + intros loader Hloader. injection Hloader as <-. reflexivity.
  - apply (@forgiving_Failer_Run Demo.outside Demo.packages
             [Timer; StopSig] (Demo.watching Demo.patient ["down"])
             (Demo.failer false)).
    + reflexivity.
    + intros err w. reflexivity.
    + intros loader Hloader. injection Hloader as <-. reflexivity.
Defined.

Lemma SetUp_first_and_once_witness :
  (∃ t, trace (Run [Timer; StopSig] (Demo.watching Demo.patient ["alice"]))
        = CallSetUp :: t
        ∧ Forall (λ c, c ≠ CallSetUp) t)
  ∧ Forall (λ c, c ≠ CallSetUp)
      (trace (Run [Timer; StopSig] (Demo.watching Demo.watcher ["alice"]))).
Proof.
  split.
  - apply (proj1 (@SetUp_first_and_once Demo.outside Demo.packages
                    [Timer; StopSig] (Demo.watching Demo.patient ["alice"]))
             (Demo.loader true)).
    reflexivity.
  - apply (proj2 (@SetUp_first_and_once Demo.outside Demo.packages
                    [Timer; StopSig] (Demo.watching Demo.watcher ["alice"]))).
    reflexivity.
Defined.

